(** * PublicationCollector: a shallow embedding of src/index.ts

    The collector is modelled as a state machine.  The instance fields of
    the TypeScript class become the fields of [St]; the outside world
    (handler code running asynchronously, cursor observation, the
    settlement of the promises the collector awaits, and the 5000 ms
    timer) is a sequence of [Event]s the collector reacts to.  The position
    of [EvTimer] in a trace is the moment the 5000 ms window elapses.

    A JavaScript plain object used as a map is modelled as a gmap (own
    keys only: collection names and document ids that are not names of
    Object.prototype properties). *)

From stdpp Require Import base gmap strings list.

Local Set Warnings "-register-all".

(** ** Values *)

(** Errors the collector can reject with.  [ErrNotFound name] is
    new Error(`Publication ${name} not found`), [ErrTimeout name] is
    new Error(`Publication ${name} did not become ready within 5000ms`);
    [ErrValue n] stands for an arbitrary value thrown by user code,
    [n] being its identity. *)
Inductive JsError :=
| ErrNotFound (name : string)
| ErrTimeout (name : string)
| ErrValue (n : nat).

(** What the collector reads from a cursor: its collection name
    (cursor._getCollectionName()). *)
Record CursorInfo := { cur_collection : string }.

(** JavaScript values as far as [_extractCursors] can tell them apart.
    [JObj pc] is an object (functions included); [pc = Some c] when it has
    a function-valued [_publishCursor] property, [c] describing the cursor.
    Arrays may carry such a property too. *)
Inductive jsval :=
| JUndefined
| JNull
| JBool (b : bool)
| JNum (z : Z)
| JStr (s : string)
| JObj (pc : option CursorInfo)
| JArr (pc : option CursorInfo) (xs : list jsval).

(** A document: a plain key-value bag. *)
Abbreviation Doc := (gmap string jsval).
(** this._documents : Record<string, Record<string, any>> *)
Abbreviation Docs := (gmap string (gmap string Doc)).
(** The value collect resolves with: Record<string, any[]> *)
Abbreviation Snapshot := (gmap string (list Doc)).

(** JavaScript truthiness ([!res] in [_extractCursors]). *)
Definition truthy (v : jsval) : bool :=
  match v with
  | JUndefined | JNull => false
  | JBool b => b
  | JNum z => negb (Z.eqb z 0)
  | JStr s => negb (String.eqb s "")
  | JObj _ | JArr _ _ => true
  end.

(** _isCursor(obj): obj && typeof obj._publishCursor === 'function' *)
Definition _isCursor (v : jsval) : bool :=
  match v with
  | JObj (Some _) | JArr (Some _) _ => true
  | _ => false
  end.

(** _extractCursors(res) *)
Definition _extractCursors (res : jsval) : list jsval :=
  if negb (truthy res) then []
  else if _isCursor res then [res]
  else match res with
       | JArr _ xs => filter (fun r => _isCursor r = true) xs
       | _ => []
       end.

(** cursor._getCollectionName() for a value that passed [_isCursor]. *)
Definition collection_name (v : jsval) : string :=
  match v with
  | JObj (Some c) | JArr (Some c) _ => cur_collection c
  | _ => ""
  end.

(** ** The document store *)

Definition bucket (c : string) (ds : Docs) : gmap string Doc :=
  default ∅ (ds !! c).

(** _ensureCollectionInRes(collection):
    this._documents[collection] = this._documents[collection] || {} *)
Definition _ensureCollectionInRes (c : string) (ds : Docs) : Docs :=
  <[c := bucket c ds]> ds.

(** added(collection, id, fields):
    this._documents[collection][id] = { _id: id, ...fields }
    (the spread comes after [_id], so a field [_id] of [fields] wins;
    stdpp's union is left-biased). *)
Definition added (c i : string) (fields : Doc) (ds : Docs) : Docs :=
  let ds1 := _ensureCollectionInRes c ds in
  <[c := <[i := fields ∪ {[ "_id" := JStr i ]}]> (bucket c ds1)]> ds1.

(** changed(collection, id, fields): Object.assign(doc, fields) when
    the document exists. *)
Definition changed (c i : string) (fields : Doc) (ds : Docs) : Docs :=
  let ds1 := _ensureCollectionInRes c ds in
  match bucket c ds1 !! i with
  | Some doc => <[c := <[i := fields ∪ doc]> (bucket c ds1)]> ds1
  | None => ds1
  end.

(** removed(collection, id): delete this._documents[collection][id] *)
Definition removed (c i : string) (ds : Docs) : Docs :=
  let ds1 := _ensureCollectionInRes c ds in
  <[c := delete i (bucket c ds1)]> ds1.

(** _generateResponse(): Object.values of every bucket. *)
Definition _generateResponse (ds : Docs) : Snapshot :=
  (fun m : gmap string Doc => (map_to_list m).*2) <$> ds.

(** The document at [(c, i)], if any. *)
Definition doc_at (ds : Docs) (c i : string) : option Doc :=
  ds !! c ≫= (fun b => b !! i).

(** ** The collector instance *)

(** Calls user code can make on the subscription context ([this]). *)
Inductive Op :=
| MAdded (c i : string) (fields : Doc)
| MChanged (c i : string) (fields : Doc)
| MRemoved (c i : string)
| MReady
| MStop.

(** How the handler call [handler.call(this, ...args)] ends. *)
Inductive HResult :=
| HThrow (e : JsError)   (* throws synchronously *)
| HReturn (v : jsval)    (* returns a value that is not a promise *)
| HPromise.              (* returns a pending promise, see [EvHandlerSettle] *)

(** The synchronous part of a handler run: the context calls it makes,
    in order, then how it ends. *)
Record HandlerRun := { h_ops : list Op; h_result : HResult }.

Definition Handler := list jsval -> HandlerRun.
(** Meteor.server.publish_handlers *)
Abbreviation Registry := (gmap string Handler).

(** What the outside world does.  [EvStarted k], [EvInitial k] and
    [EvFlushed k] deliver, when the collector awaits it, the settlement of
    the k-th cursor's _publishCursor(this) promise, of the k-th handle's
    initialAddsSent, and of the k-th handle's _multiplexer._queue.flush();
    [inl e] / [Some e] is a rejection with [e]. *)
Inductive Event :=
| EvCollect (name : string) (args : list jsval)
| EvOp (op : Op)
| EvHandlerSettle (r : JsError + jsval)
| EvStarted (k : nat) (r : JsError + nat)
| EvInitial (k : nat) (r : option JsError)
| EvFlushed (k : nat) (r : option JsError)
| EvTimer.

Inductive Timer := TNone | TArmed | TCleared | TFired.

(** The promise returned by the latest collect call. *)
Inductive Outcome :=
| NoCall
| Pending
| Resolved (s : Snapshot)
| Rejected (e : JsError).

(** Where the handler-result chain of the current call stands:
    awaiting the handler's promise, awaiting Promise.all of the
    _publishCursor promises (handle ids received so far), of the
    initialAddsSent promises, of the flush promises, or finished. *)
Inductive Phase :=
| PIdle
| PAwaitHandler
| PStarting (rs : list (option nat))
| PInitial (hs : list nat) (done : list bool)
| PFlush (hs : list nat) (done : list bool)
| PDone
| PFailed.

(** The instance: the class fields, plus the state of the promises
    created by collect ([ready_p]: readyPromise resolved, [adds_p]:
    this._addsPromise resolved), the timer, and two logs: the handles on
    which stop() was invoked, and the handler invocations. *)
Record St := mkSt {
  _documents : Docs;
  _observeHandles : list nat;
  _stopped : bool;
  stop_log : list nat;
  _readyResolver : bool;
  ready_p : bool;
  adds_p : bool;
  timer : Timer;
  outcome : Outcome;
  call_name : string;
  phase : Phase;
  invoked : list (string * list jsval)
}.

Definition init : St :=
  mkSt ∅ [] false [] false false false TNone NoCall "" PIdle [].

Definition set_documents (ds : Docs) (s : St) : St :=
  mkSt ds (_observeHandles s) (_stopped s) (stop_log s) (_readyResolver s)
    (ready_p s) (adds_p s) (timer s) (outcome s) (call_name s) (phase s)
    (invoked s).
Definition set_ready_p (b : bool) (s : St) : St :=
  mkSt (_documents s) (_observeHandles s) (_stopped s) (stop_log s)
    (_readyResolver s) b (adds_p s) (timer s) (outcome s) (call_name s)
    (phase s) (invoked s).
Definition set_adds_p (b : bool) (s : St) : St :=
  mkSt (_documents s) (_observeHandles s) (_stopped s) (stop_log s)
    (_readyResolver s) (ready_p s) b (timer s) (outcome s) (call_name s)
    (phase s) (invoked s).
Definition set_timer (t : Timer) (s : St) : St :=
  mkSt (_documents s) (_observeHandles s) (_stopped s) (stop_log s)
    (_readyResolver s) (ready_p s) (adds_p s) t (outcome s) (call_name s)
    (phase s) (invoked s).
Definition set_outcome (o : Outcome) (s : St) : St :=
  mkSt (_documents s) (_observeHandles s) (_stopped s) (stop_log s)
    (_readyResolver s) (ready_p s) (adds_p s) (timer s) o (call_name s)
    (phase s) (invoked s).
Definition set_phase (p : Phase) (s : St) : St :=
  mkSt (_documents s) (_observeHandles s) (_stopped s) (stop_log s)
    (_readyResolver s) (ready_p s) (adds_p s) (timer s) (outcome s)
    (call_name s) p (invoked s).
Definition set_handles (hs : list nat) (s : St) : St :=
  mkSt (_documents s) hs (_stopped s) (stop_log s) (_readyResolver s)
    (ready_p s) (adds_p s) (timer s) (outcome s) (call_name s) (phase s)
    (invoked s).

(** stop(): if (this._stopped) return; ... handle.stop() for every
    handle; this._observeHandles = [].  Handles of the ObserveHandle
    interface always have [stop], so the [handle?.stop] guard holds. *)
Definition stop (s : St) : St :=
  if _stopped s then s
  else mkSt (_documents s) [] true (stop_log s ++ _observeHandles s)
         (_readyResolver s) (ready_p s) (adds_p s) (timer s) (outcome s)
         (call_name s) (phase s) (invoked s).

(** Meteor.clearTimeout(timeout) *)
Definition clear_timer (t : Timer) : Timer :=
  match t with TArmed => TCleared | t => t end.

(** cleanup(timeout): clear the timer, then this.stop() *)
Definition cleanup (s : St) : St := stop (set_timer (clear_timer (timer s)) s).

(** A promise settles once: the first resolve or reject wins. *)
Definition settle (o new : Outcome) : Outcome :=
  match o with Pending => new | o => o end.

Definition reject (e : JsError) (s : St) : St :=
  set_outcome (settle (outcome s) (Rejected e)) s.

(** The success continuation of
    readyPromise.then(() => this._addsPromise).then(...):
    cleanup(timeout); resolve(this._generateResponse()). *)
Definition succeed (s : St) : St :=
  let s1 := cleanup s in
  set_outcome (settle (outcome s1) (Resolved (_generateResponse (_documents s1)))) s1.

(** Resolving readyPromise / this._addsPromise: the continuation runs
    when the second of the two is resolved; resolving a resolved promise
    does nothing. *)
Definition signal_ready (s : St) : St :=
  if ready_p s then s
  else let s1 := set_ready_p true s in if adds_p s1 then succeed s1 else s1.
Definition signal_adds (s : St) : St :=
  if adds_p s then s
  else let s1 := set_adds_p true s in if ready_p s1 then succeed s1 else s1.

(** ready(): const resolver = this._readyResolver; if (resolver) resolver(); *)
Definition ready (s : St) : St :=
  if _readyResolver s then signal_ready s else s.

(** A context call. *)
Definition apply_op (op : Op) (s : St) : St :=
  match op with
  | MAdded c i f => set_documents (added c i f (_documents s)) s
  | MChanged c i f => set_documents (changed c i f (_documents s)) s
  | MRemoved c i => set_documents (removed c i (_documents s)) s
  | MReady => ready s
  | MStop => stop s
  end.

(** The shared rejection path: .catch(err => { cleanup(timeout); reject(err); }),
    and the same two statements in the catch block of collect. *)
Definition fail (e : JsError) (s : St) : St :=
  set_phase PFailed (reject e (cleanup s)).

(** The handler-result chain, _publishHandlerResult(res).  With no
    cursors: this._allAddsProcessed?.(); this.ready().  Otherwise, for each
    cursor in order, _ensureCollectionInRes(cursor._getCollectionName())
    and then cursor._publishCursor(this); the chain then awaits
    Promise.all of the returned promises. *)
Definition _publishHandlerResult (res : jsval) (s : St) : St :=
  match _extractCursors res with
  | [] => ready (signal_adds (set_phase PDone s))
  | cursors =>
      let ds := foldl (fun ds cur => _ensureCollectionInRes (collection_name cur) ds)
                  (_documents s) cursors in
      set_phase (PStarting (map (fun _ => None) cursors)) (set_documents ds s)
  end.

(** Promise.all succeeded when every entry is settled. *)
Fixpoint all_some (rs : list (option nat)) : option (list nat) :=
  match rs with
  | [] => Some []
  | Some h :: rs' => (fun hs => h :: hs) <$> all_some rs'
  | None :: _ => None
  end.

(** Settlement of the k-th _publishCursor promise.  When all are
    resolved: this._observeHandles.push(...observeHandles), then await
    Promise.all of the initialAddsSent promises.  A rejection reaches
    catch (error) { this.error(error) }, which rethrows it, so the chain's
    .catch runs [fail]. *)
Definition on_started (k : nat) (r : JsError + nat) (s : St) : St :=
  match phase s with
  | PStarting rs =>
      match rs !! k with
      | Some None =>
          match r with
          | inl e => fail e s
          | inr h =>
              let rs' := <[k := Some h]> rs in
              match all_some rs' with
              | Some hs =>
                  set_phase (PInitial hs (map (fun _ => false) hs))
                    (set_handles (_observeHandles s ++ hs) s)
              | None => set_phase (PStarting rs') s
              end
          end
      | _ => s
      end
  | _ => s
  end.

(** Settlement of the k-th initialAddsSent; when all are resolved the
    chain calls flush() on every handle's queue and awaits them. *)
Definition on_initial (k : nat) (r : option JsError) (s : St) : St :=
  match phase s with
  | PInitial hs done =>
      match done !! k with
      | Some false =>
          match r with
          | Some e => fail e s
          | None =>
              let done' := <[k := true]> done in
              if forallb id done'
              then set_phase (PFlush hs (map (fun _ => false) hs)) s
              else set_phase (PInitial hs done') s
          end
      | _ => s
      end
  | _ => s
  end.

(** Settlement of the k-th flush(); when all are resolved:
    this._allAddsProcessed?.(); this._allAddsProcessed = undefined;
    this.ready(). *)
Definition on_flushed (k : nat) (r : option JsError) (s : St) : St :=
  match phase s with
  | PFlush hs done =>
      match done !! k with
      | Some false =>
          match r with
          | Some e => fail e s
          | None =>
              let done' := <[k := true]> done in
              if forallb id done'
              then ready (signal_adds (set_phase PDone s))
              else set_phase (PFlush hs done') s
          end
      | _ => s
      end
  | _ => s
  end.

(** Settlement of the promise the handler returned:
    Promise.resolve(result).then(res => this._publishHandlerResult(res))
      .catch(err => { cleanup(timeout); reject(err); }) *)
Definition on_handler_settle (r : JsError + jsval) (s : St) : St :=
  match phase s with
  | PAwaitHandler =>
      match r with
      | inl e => fail e s
      | inr v => _publishHandlerResult v s
      end
  | _ => s
  end.

(** The timer callback: reject(new Error(... within 5000ms)).  It does
    not call cleanup. *)
Definition on_timer (s : St) : St :=
  match timer s with
  | TArmed => reject (ErrTimeout (call_name s)) (set_timer TFired s)
  | _ => s
  end.

(** collect(name, ...args).  A missing handler makes the async function
    throw: its promise is rejected and nothing else happens.  Otherwise
    the state is reset, the promises and the timer are created, the
    handler runs with the instance as [this], and its result is handled:
    a synchronous throw goes to catch (error) { cleanup(timeout);
    reject(error); }, a plain value to _publishHandlerResult (the
    microtask of Promise.resolve(result).then), a promise to
    [on_handler_settle] later. *)
Definition collect (reg : Registry) (name : string) (args : list jsval) (s : St) : St :=
  match reg !! name with
  | None => set_outcome (Rejected (ErrNotFound name)) s
  | Some handler =>
      let s1 := mkSt ∅ [] false (stop_log s) true false false TArmed Pending
                  name PAwaitHandler (invoked s ++ [(name, args)]) in
      let run := handler args in
      let s2 := foldl (fun s op => apply_op op s) s1 (h_ops run) in
      match h_result run with
      | HThrow e => fail e s2
      | HReturn v => _publishHandlerResult v s2
      | HPromise => s2
      end
  end.

Definition step (reg : Registry) (ev : Event) (s : St) : St :=
  match ev with
  | EvCollect name args => collect reg name args s
  | EvOp op => apply_op op s
  | EvHandlerSettle r => on_handler_settle r s
  | EvStarted k r => on_started k r s
  | EvInitial k r => on_initial k r s
  | EvFlushed k r => on_flushed k r s
  | EvTimer => on_timer s
  end.

Definition run (reg : Registry) (tr : list Event) (s : St) : St :=
  foldl (fun s ev => step reg ev s) s tr.

(** ** Reference readings of the spec *)

(** The cursor-like elements of an array, in order (spec: every
    cursor-like element is retained, non-cursor elements are dropped). *)
Fixpoint keep_cursors (xs : list jsval) : list jsval :=
  match xs with
  | [] => []
  | x :: xs' => if _isCursor x then x :: keep_cursors xs' else keep_cursors xs'
  end.

(** The store part of a context call. *)
Definition store_op (op : Op) (ds : Docs) : Docs :=
  match op with
  | MAdded c i f => added c i f ds
  | MChanged c i f => changed c i f ds
  | MRemoved c i => removed c i ds
  | MReady | MStop => ds
  end.

(** Net effect of one call on the document at [(c, i)], following the
    spec: added upserts the fields with the id merged in, changed merges
    fields into an existing document, removed deletes; calls on other
    keys leave it alone. *)
Definition doc_effect (c i : string) (d : option Doc) (op : Op) : option Doc :=
  match op with
  | MAdded c' i' f => if decide (c' = c ∧ i' = i) then Some (f ∪ {[ "_id" := JStr i ]}) else d
  | MChanged c' i' f => if decide (c' = c ∧ i' = i) then (fun doc => f ∪ doc) <$> d else d
  | MRemoved c' i' => if decide (c' = c ∧ i' = i) then None else d
  | MReady | MStop => d
  end.

(** Events that neither start a new call, nor settle the handler's
    promise, nor fire the timer. *)
Definition quiet (ev : Event) : Prop :=
  match ev with
  | EvOp _ | EvStarted _ _ | EvInitial _ _ | EvFlushed _ _ => True
  | _ => False
  end.

Definition not_collect (ev : Event) : Prop :=
  match ev with EvCollect _ _ => False | _ => True end.

(** The error, if any, that an event delivers to the collector while
    the collector is waiting for it: a synchronous throw of the handler,
    the rejection of the handler's promise, or the rejection of a
    _publishCursor, initialAddsSent or flush promise being awaited. *)
Definition error_event (reg : Registry) (s : St) (ev : Event) : option JsError :=
  match ev with
  | EvCollect name args =>
      match reg !! name with
      | Some h => match h_result (h args) with HThrow e => Some e | _ => None end
      | None => None
      end
  | EvHandlerSettle (inl e) =>
      match phase s with PAwaitHandler => Some e | _ => None end
  | EvStarted k (inl e) =>
      match phase s with
      | PStarting rs => match rs !! k with Some None => Some e | _ => None end
      | _ => None
      end
  | EvInitial k (Some e) =>
      match phase s with
      | PInitial _ done => match done !! k with Some false => Some e | _ => None end
      | _ => None
      end
  | EvFlushed k (Some e) =>
      match phase s with
      | PFlush _ done => match done !! k with Some false => Some e | _ => None end
      | _ => None
      end
  | _ => None
  end.

(** Invariant used for a cursor over collection [c] that delivers no
    document: no document in [c], every resolved snapshot maps [c] to an
    empty list, and the key [c] is registered once the cursor chain has
    started or the adds signal is resolved. *)
Definition no_docs (c : string) (ds : Docs) : Prop := ∀ d, doc_at ds c d = None.
Definition key_in (c : string) (ds : Docs) : Prop := is_Some (ds !! c).
Definition snapshot_ok (c : string) (s : St) : Prop :=
  ∀ S, outcome s = Resolved S → S !! c = Some [].
Definition empty_cursor_inv (c : string) (s : St) : Prop :=
  no_docs c (_documents s) ∧ snapshot_ok c s ∧
  (adds_p s = true → key_in c (_documents s)) ∧
  match phase s with
  | PStarting _ | PInitial _ _ | PFlush _ _ => key_in c (_documents s)
  | _ => True
  end.

(** Closes [x ∉ l] for a concrete list [l] none of whose elements has
    the shape of [x]. *)
Ltac not_in_list :=
  let Hin := fresh in
  intros Hin;
  repeat (apply elem_of_cons in Hin as [Hin|Hin]; [discriminate|]);
  by apply not_elem_of_nil in Hin.

(** Two states that differ at most in whether readyPromise is resolved,
    while this._addsPromise is not, are identified: [norm] forgets the
    readiness flag in that case. *)
Definition norm (s : St) : St := if adds_p s then s else set_ready_p false s.

(** Reachable states: the adds signal is resolved only together with the
    readiness signal, and _readyResolver is set as soon as a call started. *)
Definition ready_inv (s : St) : Prop :=
  (adds_p s = true → ready_p s = true) ∧ (phase s ≠ PIdle → _readyResolver s = true).

(** ** Concrete publications used by the examples below *)

(** A cursor over collection c. *)
Definition cursor_c : jsval := JObj (Some {| cur_collection := "c" |}).

(** Meteor.publish('pub', function () { return cursor_c; }) *)
Definition reg_cursor : Registry :=
  {[ "pub" := fun _ => {| h_ops := []; h_result := HReturn cursor_c |} ]}.

(** Meteor.publish('pub', function () { return null; }) *)
Definition reg_null : Registry :=
  {[ "pub" := fun _ => {| h_ops := []; h_result := HReturn JNull |} ]}.

(** Meteor.publish('pub', async function () { ... }) *)
Definition reg_async : Registry :=
  {[ "pub" := fun _ => {| h_ops := []; h_result := HPromise |} ]}.

(** The (collection, id) a context call targets, and how it updates the
    document stored there. *)
Definition op_target (op : Op) : option (string * string) :=
  match op with
  | MAdded c i _ | MChanged c i _ | MRemoved c i => Some (c, i)
  | MReady | MStop => None
  end.

Definition op_update (op : Op) : option Doc → option Doc :=
  match op with
  | MAdded _ i f => fun _ => Some (f ∪ {[ "_id" := JStr i ]})
  | MChanged _ _ f => fmap (fun doc => f ∪ doc)
  | MRemoved _ _ => fun _ => None
  | MReady | MStop => id
  end.

(** The entries of the Promise.all of _publishCursor promises once the
    ones with index in [done] resolved with the handles [hs]; the flags of
    a Promise.all of initialAddsSent or flush() promises once those with
    index in [done] resolved. *)
Definition started (hs : list nat) (done : list nat) : list (option nat) :=
  imap (fun k h => if bool_decide (k ∈ done) then Some h else None) hs.
Definition marks (hs : list nat) (done : list nat) : list bool :=
  imap (fun k _ => bool_decide (k ∈ done)) hs.

(** The settlements of the promises awaited for the handles [hs], in the
    order [ks] of their indices: _publishCursor resolving with handle
    [hs !!! k], initialAddsSent resolving, flush() resolving. *)
Definition start_events (hs : list nat) (ks : list nat) : list Event :=
  map (fun k => EvStarted k (inr (hs !!! k))) ks.
Definition initial_events (ks : list nat) : list Event :=
  map (fun k => EvInitial k None) ks.
Definition flush_events (ks : list nat) : list Event :=
  map (fun k => EvFlushed k None) ks.

(** Meteor.publish('pub', function () { this.stop(); return cursor_c; }) *)
Definition reg_stop_cursor : Registry :=
  {[ "pub" := fun _ => {| h_ops := [MStop]; h_result := HReturn cursor_c |} ]}.

(** What a resolved call leaves behind: stop() has run, the timer is
    not pending, the handler-result chain is finished; and the adds signal
    is only resolved at the end of that chain. *)
Definition done_inv (s : St) : Prop :=
  (∀ S, outcome s = Resolved S → _stopped s = true ∧ timer s ≠ TArmed ∧ phase s = PDone) ∧
  (adds_p s = true → phase s = PDone).

(** * Properties *)

Lemma doc_at_insert (ds : Docs) (c' c i : string) (b : gmap string Doc) :
  doc_at (<[c' := b]> ds) c i = if decide (c' = c) then b !! i else doc_at ds c i.
Proof.
  unfold doc_at. destruct (decide (c' = c)) as [->|Hne].
  - by rewrite lookup_insert_eq.
  - by rewrite lookup_insert_ne.
Qed.

Lemma bucket_lookup (ds : Docs) (c i : string) : bucket c ds !! i = doc_at ds c i.
Proof. unfold bucket, doc_at. by destruct (ds !! c). Qed.

Lemma doc_at_ensure (ds : Docs) (c' c i : string) :
  doc_at (_ensureCollectionInRes c' ds) c i = doc_at ds c i.
Proof.
  unfold _ensureCollectionInRes. rewrite doc_at_insert.
  case_decide; subst; [apply bucket_lookup | done].
Qed.

Lemma bucket_ensure (ds : Docs) (c : string) :
  bucket c (_ensureCollectionInRes c ds) = bucket c ds.
Proof. unfold bucket at 1, _ensureCollectionInRes. by rewrite lookup_insert_eq. Qed.

Lemma ensure_idem (ds : Docs) (c : string) :
  _ensureCollectionInRes c (_ensureCollectionInRes c ds) = _ensureCollectionInRes c ds.
Proof.
  unfold _ensureCollectionInRes at 1. rewrite bucket_ensure.
  unfold _ensureCollectionInRes. by rewrite insert_insert_eq.
Qed.

Lemma doc_at_store_op (op : Op) (ds : Docs) (c i : string) :
  doc_at (store_op op ds) c i = doc_effect c i (doc_at ds c i) op.
Proof.
  destruct op as [c' i' f|c' i' f|c' i'| |]; simpl; try done.
  - unfold added. rewrite doc_at_insert, doc_at_ensure.
    destruct (decide (c' = c)) as [->|Hc].
    + destruct (decide (i' = i)) as [->|Hi].
      * rewrite lookup_insert_eq. by rewrite decide_True by done.
      * rewrite lookup_insert_ne by done. rewrite bucket_ensure, bucket_lookup.
        rewrite decide_False by naive_solver. done.
    + rewrite decide_False by naive_solver. done.
  - unfold changed. rewrite bucket_ensure, bucket_lookup.
    destruct (doc_at ds c' i') as [doc|] eqn:Hd.
    + rewrite doc_at_insert, doc_at_ensure.
      destruct (decide (c' = c)) as [->|Hc].
      * destruct (decide (i' = i)) as [->|Hi].
        -- rewrite lookup_insert_eq, decide_True by done. by rewrite Hd.
        -- rewrite lookup_insert_ne by done. rewrite ?bucket_ensure, bucket_lookup.
           rewrite decide_False by naive_solver. done.
      * rewrite decide_False by naive_solver. done.
    + rewrite doc_at_ensure.
      case_decide as Hci; [destruct Hci as [-> ->]; by rewrite Hd | done].
  - unfold removed. rewrite doc_at_insert, doc_at_ensure.
    destruct (decide (c' = c)) as [->|Hc].
    + destruct (decide (i' = i)) as [->|Hi].
      * rewrite lookup_delete_eq. by rewrite decide_True by done.
      * rewrite lookup_delete_ne by done. rewrite bucket_ensure, bucket_lookup.
        rewrite decide_False by naive_solver. done.
    + rewrite decide_False by naive_solver. done.
Qed.

Lemma doc_at_in_response (ds : Docs) (c i : string) (d : Doc) :
  doc_at ds c i = Some d → d ∈ default [] (_generateResponse ds !! c).
Proof.
  unfold doc_at, _generateResponse. rewrite lookup_fmap.
  destruct (ds !! c) as [b|]; simpl; [|done]. intros Hb.
  apply list_elem_of_fmap. exists (i, d). split; [done|].
  by apply elem_of_map_to_list.
Qed.

Lemma store_ops_doc_at (ops : list Op) (ds : Docs) (c i : string) :
  doc_at (foldl (fun ds op => store_op op ds) ds ops) c i
  = foldl (doc_effect c i) (doc_at ds c i) ops.
Proof.
  revert ds. induction ops as [|op ops IH]; intros ds; simpl; [done|].
  by rewrite IH, doc_at_store_op.
Qed.

(** C5: the retained cursor list: nothing for null/undefined, the value
    itself for a cursor-like value, the cursor-like elements of an array
    in order, nothing for any other value. *)
Theorem extract_cursors_classification (v : jsval) :
  ((v = JNull ∨ v = JUndefined) → _extractCursors v = []) ∧
  (_isCursor v = true → _extractCursors v = [v]) ∧
  (∀ pc xs, v = JArr pc xs → _isCursor v = false → _extractCursors v = keep_cursors xs) ∧
  ((∀ pc xs, v ≠ JArr pc xs) → _isCursor v = false → _extractCursors v = []).
Proof.
  split; [intros [-> | ->]; reflexivity|].
  split; [destruct v as [| | | | |[]|[] xs]; simpl; done|].
  split.
  - intros pc xs -> Hc. destruct pc; [discriminate|]. clear Hc.
    unfold _extractCursors. simpl. induction xs as [|x xs IH]; simpl; [done|].
    destruct (_isCursor x) eqn:Hx.
    + rewrite filter_cons_True by done. by f_equal.
    + rewrite filter_cons_False by (rewrite Hx; discriminate). done.
  - intros Hna Hc. unfold _extractCursors. rewrite Hc.
    destruct (truthy v); simpl; [|done].
    destruct v; try done. exfalso. by eapply Hna.
Qed.

(** C3 (as stated, refuted): on an empty store, changed or removed of a
    missing document adds the collection key. *)
Lemma changed_removed_missing_adds_key :
  doc_at ∅ "c" "x" = None ∧
  changed "c" "x" ∅ ∅ ≠ ∅ ∧ removed "c" "x" ∅ ≠ ∅ ∧
  _generateResponse (changed "c" "x" ∅ ∅) !! "c" = Some [] ∧
  _generateResponse (∅ : Docs) !! "c" = None.
Proof.
  split; [reflexivity|]. split; [|split; [|split]].
  - intros H. assert (Hc : changed "c" "x" ∅ ∅ !! "c" = Some ∅) by reflexivity.
    rewrite H, lookup_empty in Hc. discriminate.
  - intros H. assert (Hc : removed "c" "x" ∅ !! "c" = Some ∅) by reflexivity.
    rewrite H, lookup_empty in Hc. discriminate.
  - reflexivity.
  - reflexivity.
Qed.

(** C3 (amended): changed or removed of a missing document raises
    nothing and changes no document; its only effect is
    _ensureCollectionInRes: the collection's bucket is kept, or created
    empty when absent. *)
Theorem changed_removed_missing_only_ensure (ds : Docs) (c i : string) (f : Doc) :
  doc_at ds c i = None →
  changed c i f ds = _ensureCollectionInRes c ds ∧
  removed c i ds = _ensureCollectionInRes c ds ∧
  (∀ c' i', doc_at (_ensureCollectionInRes c ds) c' i' = doc_at ds c' i') ∧
  (∀ c', c' ≠ c → _ensureCollectionInRes c ds !! c' = ds !! c') ∧
  _ensureCollectionInRes c ds !! c = Some (bucket c ds).
Proof.
  intros Hnone. split; [|split; [|split; [|split]]].
  - unfold changed. rewrite bucket_ensure, bucket_lookup, Hnone. done.
  - unfold removed. rewrite bucket_ensure, delete_id by by rewrite bucket_lookup.
    unfold _ensureCollectionInRes. by rewrite insert_insert_eq.
  - intros c' i'. apply doc_at_ensure.
  - intros c' Hne. unfold _ensureCollectionInRes. by rewrite lookup_insert_ne.
  - unfold _ensureCollectionInRes. by rewrite lookup_insert_eq.
Qed.

Lemma changed_removed_missing_only_ensure_witness :
  doc_at ∅ "c" "x" = None ∧
  changed "c" "x" ∅ ∅ = _ensureCollectionInRes "c" ∅ ∧
  removed "c" "x" ∅ = _ensureCollectionInRes "c" ∅.
Proof.
  assert (H : doc_at ∅ "c" "x" = None) by reflexivity.
  destruct (changed_removed_missing_only_ensure ∅ "c" "x" ∅ H) as (H1 & H2 & _).
  split; [exact H | split; [exact H1 | exact H2]].
Defined.

(** C4: the document at (c, i) after any sequence of context calls is
    the net effect of the calls on (c, i), in call order; added then
    changed leaves one document, the added fields with the _id merged
    with the changed fields, listed in the snapshot; a following removed
    leaves no document at i. *)
Theorem net_effect_in_call_order (ds : Docs) (c i : string) (f1 f2 : Doc) :
  (∀ ops : list Op, doc_at (foldl (fun ds op => store_op op ds) ds ops) c i
                    = foldl (doc_effect c i) (doc_at ds c i) ops) ∧
  doc_at (changed c i f2 (added c i f1 ds)) c i = Some (f2 ∪ (f1 ∪ {[ "_id" := JStr i ]})) ∧
  f2 ∪ (f1 ∪ {[ "_id" := JStr i ]})
    ∈ default [] (_generateResponse (changed c i f2 (added c i f1 ds)) !! c) ∧
  doc_at (removed c i (changed c i f2 (added c i f1 ds))) c i = None.
Proof.
  assert (Hac : doc_at (changed c i f2 (added c i f1 ds)) c i
                = Some (f2 ∪ (f1 ∪ {[ "_id" := JStr i ]}))).
  { pose proof (store_ops_doc_at [MAdded c i f1; MChanged c i f2] ds c i) as H.
    simpl in H. rewrite H. rewrite !decide_True by done. done. }
  split; [intros ops; apply store_ops_doc_at|].
  split; [exact Hac|]. split; [by apply (doc_at_in_response _ c i)|].
  pose proof (doc_at_store_op (MRemoved c i) (changed c i f2 (added c i f1 ds)) c i) as H.
  simpl in H. rewrite H. by rewrite decide_True by done.
Qed.

(** ** Projections of the instance operations *)

Lemma stop_fields (s : St) :
  _documents (stop s) = _documents s ∧ ready_p (stop s) = ready_p s ∧
  adds_p (stop s) = adds_p s ∧ outcome (stop s) = outcome s ∧
  phase (stop s) = phase s ∧ _readyResolver (stop s) = _readyResolver s ∧
  timer (stop s) = timer s ∧ call_name (stop s) = call_name s ∧
  invoked (stop s) = invoked s.
Proof. unfold stop. destruct (_stopped s); simpl; auto 10. Qed.

Lemma cleanup_fields (s : St) :
  _documents (cleanup s) = _documents s ∧ ready_p (cleanup s) = ready_p s ∧
  adds_p (cleanup s) = adds_p s ∧ outcome (cleanup s) = outcome s ∧
  phase (cleanup s) = phase s ∧ _readyResolver (cleanup s) = _readyResolver s ∧
  timer (cleanup s) = clear_timer (timer s).
Proof.
  unfold cleanup. destruct (stop_fields (set_timer (clear_timer (timer s)) s))
    as (H1 & H2 & H3 & H4 & H5 & H6 & H7 & _). rewrite H1, H2, H3, H4, H5, H6, H7.
  simpl. auto 10.
Qed.

(** C8: a name missing from the registry: collect rejects at once with
    a new not-found error naming it; no handler is invoked, no state is
    reset, no observation is started. *)
Theorem collect_not_found (reg : Registry) (name : string) (args : list jsval) (s : St) :
  reg !! name = None →
  collect reg name args s = set_outcome (Rejected (ErrNotFound name)) s ∧
  outcome (collect reg name args s) = Rejected (ErrNotFound name) ∧
  invoked (collect reg name args s) = invoked s ∧
  _observeHandles (collect reg name args s) = _observeHandles s ∧
  phase (collect reg name args s) = phase s ∧
  _documents (collect reg name args s) = _documents s.
Proof. intros Hn. unfold collect. destruct (reg !! name) eqn:E; [discriminate|]. simpl. auto 10. Qed.

Lemma collect_not_found_witness :
  (∅ : Registry) !! "missing" = None ∧
  outcome (collect ∅ "missing" [JNum 1] init) = Rejected (ErrNotFound "missing") ∧
  invoked (collect ∅ "missing" [JNum 1] init) = [].
Proof.
  assert (H : (∅ : Registry) !! "missing" = None) by reflexivity.
  destruct (collect_not_found ∅ "missing" [JNum 1] init H) as (_ & H2 & H3 & _).
  split; [exact H | split; [exact H2 | exact H3]].
Defined.

(** C9: stop() is idempotent; a first invocation stops every registered
    handle and empties the set, a later one does nothing. *)
Theorem stop_idempotent (s : St) :
  stop (stop s) = stop s ∧
  (_stopped s = false →
     _stopped (stop s) = true ∧ _observeHandles (stop s) = [] ∧
     stop_log (stop s) = stop_log s ++ _observeHandles s) ∧
  (_stopped s = true → stop s = s).
Proof.
  unfold stop. destruct (_stopped s) eqn:Hs; simpl.
  - rewrite Hs. split; [done|]. split; [discriminate|done].
  - split; [done|]. split; [done|discriminate].
Qed.

Lemma stop_idempotent_witness :
  let s := run reg_cursor [EvCollect "pub" []; EvStarted 0 (inr 7)] init in
  _stopped s = false ∧ stop (stop s) = stop s ∧
  _observeHandles (stop s) = [] ∧ stop_log (stop s) = [7].
Proof.
  intros s. destruct (stop_idempotent s) as (H1 & H2 & _).
  assert (Hf : _stopped s = false) by reflexivity.
  destruct (H2 Hf) as (_ & H4 & H5).
  split; [exact Hf|]. split; [exact H1|]. split; [exact H4|].
  rewrite H5. reflexivity.
Defined.

(** C1 (defect): the cursor's handle is registered, its initialAddsSent
    never settles, the 5000 ms timer fires: collect rejects with the
    timeout error, but the timer callback runs no cleanup, so the handle
    is neither stopped nor unregistered. *)
Lemma timeout_leaves_observer_registered :
  let s := run reg_cursor [EvCollect "pub" []; EvStarted 0 (inr 7); EvTimer] init in
  outcome s = Rejected (ErrTimeout "pub") ∧
  _observeHandles s = [7] ∧ _stopped s = false ∧ stop_log s = [] ∧
  timer s = TFired ∧ phase s = PInitial [7] [false].
Proof. vm_compute. auto 10. Qed.

(** C2 (as stated, refuted): a handler that returns null and never calls
    ready(): collect resolves with the empty snapshot, and the timer
    firing later changes nothing. *)
Lemma null_handler_resolves_without_ready :
  outcome (run reg_null [EvCollect "pub" []] init) = Resolved ∅ ∧
  outcome (run reg_null [EvCollect "pub" []; EvTimer] init) = Resolved ∅ ∧
  ready_p (run reg_null [EvCollect "pub" []] init) = true.
Proof. vm_compute. auto. Qed.

Lemma stop_stopped (s : St) : _stopped (stop s) = true.
Proof. unfold stop. destruct (_stopped s) eqn:E; [exact E|done]. Qed.

Lemma settle_pending (o : Outcome) : settle o Pending = o.
Proof. by destruct o. Qed.

Lemma settle_settled (o n : Outcome) : o ≠ Pending → settle o n = o.
Proof. destruct o; simpl; congruence. Qed.

Lemma succeed_fields (s : St) :
  _documents (succeed s) = _documents s ∧ ready_p (succeed s) = ready_p s ∧
  adds_p (succeed s) = adds_p s ∧
  outcome (succeed s) = settle (outcome s) (Resolved (_generateResponse (_documents s))) ∧
  phase (succeed s) = phase s ∧ _readyResolver (succeed s) = _readyResolver s ∧
  _stopped (succeed s) = true.
Proof.
  unfold succeed. destruct (cleanup_fields s) as (H1 & H2 & H3 & H4 & H5 & H6 & _).
  simpl. rewrite H1, H2, H3, H4, H5, H6. repeat split. apply stop_stopped.
Qed.

Lemma reject_fields (e : JsError) (s : St) :
  _documents (reject e s) = _documents s ∧ ready_p (reject e s) = ready_p s ∧
  adds_p (reject e s) = adds_p s ∧
  outcome (reject e s) = settle (outcome s) (Rejected e) ∧
  phase (reject e s) = phase s ∧ _readyResolver (reject e s) = _readyResolver s ∧
  _stopped (reject e s) = _stopped s ∧ timer (reject e s) = timer s.
Proof. unfold reject. simpl. auto 10. Qed.

Lemma fail_fields (e : JsError) (s : St) :
  _documents (fail e s) = _documents s ∧ ready_p (fail e s) = ready_p s ∧
  adds_p (fail e s) = adds_p s ∧
  outcome (fail e s) = settle (outcome s) (Rejected e) ∧
  phase (fail e s) = PFailed ∧ _readyResolver (fail e s) = _readyResolver s ∧
  _stopped (fail e s) = true ∧ timer (fail e s) = clear_timer (timer s).
Proof.
  unfold fail, reject. destruct (cleanup_fields s) as (H1 & H2 & H3 & H4 & H5 & H6 & H7).
  simpl. rewrite H1, H2, H3, H4, H6, H7. repeat split. apply stop_stopped.
Qed.

(** While this._addsPromise is unresolved, context calls settle nothing
    and leave the chain where it is. *)
Lemma apply_op_quiet (op : Op) (s : St) :
  adds_p s = false →
  outcome (apply_op op s) = outcome s ∧ adds_p (apply_op op s) = false ∧
  phase (apply_op op s) = phase s ∧ _readyResolver (apply_op op s) = _readyResolver s ∧
  timer (apply_op op s) = timer s.
Proof.
  intros Ha. destruct op; simpl; auto 10.
  - unfold ready, signal_ready.
    destruct (_readyResolver s) eqn:Er, (ready_p s) eqn:Erp; simpl;
      rewrite ?Ha; simpl; repeat split; auto.
  - destruct (stop_fields s) as (_ & _ & H3 & H4 & H5 & H6 & H7 & _).
    rewrite H3, H4, H5, H6, H7. auto 10.
Qed.

Lemma apply_ops_quiet (ops : list Op) (s : St) :
  adds_p s = false →
  let s' := foldl (fun s op => apply_op op s) s ops in
  outcome s' = outcome s ∧ adds_p s' = false ∧ phase s' = phase s ∧
  _readyResolver s' = _readyResolver s ∧ timer s' = timer s.
Proof.
  revert s. induction ops as [|op ops IH]; intros s Ha; simpl; [auto 10|].
  destruct (apply_op_quiet op s Ha) as (H1 & H2 & H3 & H4 & H5).
  destruct (IH (apply_op op s) H2) as (G1 & G2 & G3 & G4 & G5).
  rewrite G1, G3, G4, G5, H1, H3, H4, H5. auto 10.
Qed.

Lemma signal_ready_documents (s : St) : _documents (signal_ready s) = _documents s.
Proof.
  unfold signal_ready. destruct (ready_p s); [done|]. simpl.
  destruct (adds_p s); [|done]. apply (succeed_fields (set_ready_p true s)).
Qed.

Lemma signal_adds_documents (s : St) : _documents (signal_adds s) = _documents s.
Proof.
  unfold signal_adds. destruct (adds_p s); [done|]. simpl.
  destruct (ready_p s); [|done]. apply (succeed_fields (set_adds_p true s)).
Qed.

Lemma ready_documents (s : St) : _documents (ready s) = _documents s.
Proof. unfold ready. destruct (_readyResolver s); [apply signal_ready_documents|done]. Qed.

Lemma apply_op_documents (op : Op) (s : St) :
  _documents (apply_op op s) = store_op op (_documents s).
Proof.
  destruct op; simpl; try done.
  - apply ready_documents.
  - apply (stop_fields s).
Qed.

(** ** Settlement: the first resolve or reject wins *)

Lemma settle_assoc (o x y : Outcome) : settle (settle o x) y = settle o (settle x y).
Proof. by destruct o. Qed.

Lemma signal_ready_settles (s : St) : ∃ x, outcome (signal_ready s) = settle (outcome s) x.
Proof.
  unfold signal_ready. destruct (ready_p s); [exists Pending; by rewrite settle_pending|].
  destruct (adds_p (set_ready_p true s)).
  - eexists. apply (succeed_fields (set_ready_p true s)).
  - exists Pending. by rewrite settle_pending.
Qed.

Lemma signal_adds_settles (s : St) : ∃ x, outcome (signal_adds s) = settle (outcome s) x.
Proof.
  unfold signal_adds. destruct (adds_p s); [exists Pending; by rewrite settle_pending|].
  destruct (ready_p (set_adds_p true s)).
  - eexists. apply (succeed_fields (set_adds_p true s)).
  - exists Pending. by rewrite settle_pending.
Qed.

Lemma ready_settles (s : St) : ∃ x, outcome (ready s) = settle (outcome s) x.
Proof.
  unfold ready. destruct (_readyResolver s); [apply signal_ready_settles|].
  exists Pending. by rewrite settle_pending.
Qed.

Lemma ready_signal_adds_settles (s : St) :
  ∃ x, outcome (ready (signal_adds s)) = settle (outcome s) x.
Proof.
  destruct (ready_settles (signal_adds s)) as [x Hx].
  destruct (signal_adds_settles s) as [y Hy].
  exists (settle y x). by rewrite Hx, Hy, settle_assoc.
Qed.

Lemma apply_op_settles (op : Op) (s : St) : ∃ x, outcome (apply_op op s) = settle (outcome s) x.
Proof.
  destruct op; simpl; try (exists Pending; by rewrite settle_pending).
  - apply ready_settles.
  - exists Pending. rewrite settle_pending. apply (stop_fields s).
Qed.

Lemma publish_settles (v : jsval) (s : St) :
  ∃ x, outcome (_publishHandlerResult v s) = settle (outcome s) x.
Proof.
  unfold _publishHandlerResult. destruct (_extractCursors v).
  - apply (ready_signal_adds_settles (set_phase PDone s)).
  - exists Pending. by rewrite settle_pending.
Qed.

Lemma fail_settles (e : JsError) (s : St) : ∃ x, outcome (fail e s) = settle (outcome s) x.
Proof. exists (Rejected e). apply fail_fields. Qed.

(** Every event except a new collect call only settles the current
    promise, so once settled it stays as it is. *)
Lemma step_settles (reg : Registry) (ev : Event) (s : St) :
  not_collect ev → ∃ x, outcome (step reg ev s) = settle (outcome s) x.
Proof.
  intros Hnc. destruct ev as [n a|op|r|k r|k r|k r|]; simpl; [done| | | | | |].
  - apply apply_op_settles.
  - unfold on_handler_settle. destruct (phase s); try (exists Pending; by rewrite settle_pending).
    destruct r; [apply fail_settles|apply publish_settles].
  - unfold on_started. destruct (phase s); try (exists Pending; by rewrite settle_pending).
    destruct (rs !! k) as [[]|]; try (exists Pending; by rewrite settle_pending).
    destruct r; [apply fail_settles|].
    destruct (all_some _); (exists Pending; by rewrite settle_pending).
  - unfold on_initial. destruct (phase s); try (exists Pending; by rewrite settle_pending).
    destruct (done !! k) as [[]|]; try (exists Pending; by rewrite settle_pending).
    destruct r; [apply fail_settles|].
    destruct (forallb _ _); (exists Pending; by rewrite settle_pending).
  - unfold on_flushed. destruct (phase s); try (exists Pending; by rewrite settle_pending).
    destruct (done !! k) as [[]|]; try (exists Pending; by rewrite settle_pending).
    destruct r; [apply fail_settles|].
    destruct (forallb _ _); [apply (ready_signal_adds_settles (set_phase PDone s))|].
    exists Pending. by rewrite settle_pending.
  - unfold on_timer. destruct (timer s); try (exists Pending; by rewrite settle_pending).
    exists (Rejected (ErrTimeout (call_name s))). reflexivity.
Qed.

Lemma run_cons (reg : Registry) (ev : Event) (tr : list Event) (s : St) :
  run reg (ev :: tr) s = run reg tr (step reg ev s).
Proof. reflexivity. Qed.

Lemma run_app (reg : Registry) (tr1 tr2 : list Event) (s : St) :
  run reg (tr1 ++ tr2) s = run reg tr2 (run reg tr1 s).
Proof. unfold run. by rewrite foldl_app. Qed.

Lemma run_keeps_settled (reg : Registry) (tr : list Event) (s : St) :
  Forall not_collect tr → outcome s ≠ Pending → outcome (run reg tr s) = outcome s.
Proof.
  revert s. induction tr as [|ev tr IH]; intros s Htr Hs; [done|].
  rewrite run_cons. apply Forall_cons in Htr as [Hev Htr].
  destruct (step_settles reg ev s Hev) as [x Hx].
  assert (Hkeep : outcome (step reg ev s) = outcome s) by (rewrite Hx; by apply settle_settled).
  rewrite IH; [done|done|by rewrite Hkeep].
Qed.

(** ** A call awaiting its handler's result *)

Lemma succeed_timer (s : St) : timer (succeed s) = clear_timer (timer s).
Proof. unfold succeed. simpl. apply (cleanup_fields s). Qed.

Lemma apply_ops_documents (ops : list Op) (s : St) :
  _documents (foldl (fun s op => apply_op op s) s ops)
  = foldl (fun ds op => store_op op ds) (_documents s) ops.
Proof.
  revert s. induction ops as [|op ops IH]; intros s; simpl; [done|].
  by rewrite IH, apply_op_documents.
Qed.

(** What collect does with a registered handler: the reset state, the
    handler's synchronous context calls, then its result. *)
Lemma collect_found (reg : Registry) (name : string) (args : list jsval) (s : St) (h : Handler) :
  reg !! name = Some h →
  ∃ s2, phase s2 = PAwaitHandler ∧ adds_p s2 = false ∧ outcome s2 = Pending ∧
    _readyResolver s2 = true ∧ timer s2 = TArmed ∧
    _documents s2 = foldl (fun ds op => store_op op ds) ∅ (h_ops (h args)) ∧
    collect reg name args s =
      match h_result (h args) with
      | HThrow e => fail e s2
      | HReturn v => _publishHandlerResult v s2
      | HPromise => s2
      end.
Proof.
  intros Hh. unfold collect. destruct (reg !! name) as [h'|] eqn:E; [|discriminate].
  injection Hh as ->.
  set (s1 := mkSt ∅ [] false (stop_log s) true false false TArmed Pending
               name PAwaitHandler (invoked s ++ [(name, args)])).
  destruct (apply_ops_quiet (h_ops (h args)) s1 eq_refl) as (H1 & H2 & H3 & H4 & H5).
  eexists. split; [exact H3|]. split; [exact H2|]. split; [exact H1|].
  split; [exact H4|]. split; [exact H5|]. split; [apply apply_ops_documents|].
  reflexivity.
Qed.

Lemma quiet_await_step (reg : Registry) (ev : Event) (s : St) :
  quiet ev → phase s = PAwaitHandler → adds_p s = false →
  let s' := step reg ev s in
  phase s' = PAwaitHandler ∧ adds_p s' = false ∧ outcome s' = outcome s ∧
  _readyResolver s' = _readyResolver s ∧ timer s' = timer s.
Proof.
  intros Hq Hp Ha. cbv zeta. destruct ev; simpl in Hq |- *; try done.
  - destruct (apply_op_quiet op s Ha) as (H1 & H2 & H3 & H4 & H5).
    rewrite H1, H2, H3, H4, H5. auto.
  - unfold on_started. rewrite Hp. auto.
  - unfold on_initial. rewrite Hp. auto.
  - unfold on_flushed. rewrite Hp. auto.
Qed.

Lemma quiet_await_run (reg : Registry) (tr : list Event) (s : St) :
  Forall quiet tr → phase s = PAwaitHandler → adds_p s = false →
  let s' := run reg tr s in
  phase s' = PAwaitHandler ∧ adds_p s' = false ∧ outcome s' = outcome s ∧
  _readyResolver s' = _readyResolver s ∧ timer s' = timer s.
Proof.
  revert s. induction tr as [|ev tr IH]; intros s Htr Hp Ha; cbv zeta; [simpl; auto|].
  rewrite run_cons. apply Forall_cons in Htr as [Hev Htr].
  destruct (quiet_await_step reg ev s Hev Hp Ha) as (H1 & H2 & H3 & H4 & H5).
  destruct (IH _ Htr H1 H2) as (G1 & G2 & G3 & G4 & G5).
  rewrite G3, G4, G5, H3, H4, H5. auto.
Qed.

Lemma signal_adds_ready_first (s : St) :
  adds_p s = false → ready_p s = true → signal_adds s = succeed (set_adds_p true s).
Proof. intros Ha Hr. unfold signal_adds. rewrite Ha. cbn [ready_p set_adds_p]. by rewrite Hr. Qed.

Lemma signal_adds_ready_later (s : St) :
  adds_p s = false → ready_p s = false → signal_adds s = set_adds_p true s.
Proof. intros Ha Hr. unfold signal_adds. rewrite Ha. cbn [ready_p set_adds_p]. by rewrite Hr. Qed.

Lemma ready_resolved (s : St) : ready_p s = true → ready s = s.
Proof. intros Hr. unfold ready, signal_ready. rewrite Hr. by destruct (_readyResolver s). Qed.

Lemma ready_completes (s : St) :
  _readyResolver s = true → ready_p s = false → adds_p s = true →
  ready s = succeed (set_ready_p true s).
Proof.
  intros Hres Hr Ha. unfold ready, signal_ready. rewrite Hres, Hr.
  cbn [adds_p set_ready_p]. by rewrite Ha.
Qed.

(** this._allAddsProcessed?.(); this.ready(): with readyPromise still
    unresolved or already resolved, the success continuation runs. *)
Lemma ready_signal_adds_succeeds (s : St) :
  adds_p s = false → _readyResolver s = true →
  ∃ s', ready (signal_adds s) = succeed s' ∧ _documents s' = _documents s ∧
        outcome s' = outcome s ∧ timer s' = timer s.
Proof.
  intros Ha Hres. destruct (ready_p s) eqn:Er.
  - rewrite signal_adds_ready_first by done. rewrite ready_resolved.
    + eexists. split; [reflexivity|]. auto.
    + rewrite (proj1 (proj2 (succeed_fields _))). cbn. exact Er.
  - rewrite signal_adds_ready_later by done. rewrite ready_completes; cbn; try done.
    eexists. split; [reflexivity|]. auto.
Qed.

(** A handler result with no cursors resolves the call. *)
Lemma publish_no_cursor (v : jsval) (s : St) :
  _extractCursors v = [] → adds_p s = false → _readyResolver s = true →
  outcome s = Pending →
  outcome (_publishHandlerResult v s) = Resolved (_generateResponse (_documents s)) ∧
  _documents (_publishHandlerResult v s) = _documents s ∧
  timer (_publishHandlerResult v s) = clear_timer (timer s).
Proof.
  intros Hv Ha Hr Ho. unfold _publishHandlerResult. rewrite Hv.
  destruct (ready_signal_adds_succeeds (set_phase PDone s) Ha Hr)
    as (s' & -> & Hd & Hout & Ht).
  destruct (succeed_fields s') as (H1 & _ & _ & H4 & _).
  rewrite H4, H1, succeed_timer, Hd, Hout, Ht. cbn. rewrite Ho. auto.
Qed.

(** C2 (amended): a handler whose result (returned, or the value its
    promise resolves with while the call is pending) has no cursors makes
    collect resolve with the snapshot, whether or not the handler called
    ready(); the timer is cleared and the result stays settled. *)
Theorem no_cursor_result_resolves (reg : Registry) (name : string) (args : list jsval)
    (h : Handler) (s : St) (tr : list Event) (v : jsval) :
  reg !! name = Some h →
  _extractCursors v = [] →
  (h_result (h args) = HReturn v ∧ tr = [] ∨
   h_result (h args) = HPromise ∧
   ∃ tr0, Forall quiet tr0 ∧ tr = tr0 ++ [EvHandlerSettle (inr v)]) →
  let s' := run reg (EvCollect name args :: tr) s in
  outcome s' = Resolved (_generateResponse (_documents s')) ∧
  timer s' = TCleared ∧
  (∀ tr', Forall not_collect tr' → outcome (run reg tr' s') = outcome s').
Proof.
  intros Hh Hv Hcase. cbv zeta. rewrite run_cons. simpl step.
  destruct (collect_found reg name args s h Hh)
    as (s2 & Hp & Ha & Ho & Hr & Ht & _ & Hcol).
  assert (Hres : outcome (run reg tr (collect reg name args s))
                 = Resolved (_generateResponse (_documents (run reg tr (collect reg name args s))))
                 ∧ timer (run reg tr (collect reg name args s)) = TCleared).
  { destruct Hcase as [[Hret ->] | [Hprom (tr0 & Hq & ->)]].
    - rewrite Hret in Hcol. rewrite Hcol. simpl run.
      destruct (publish_no_cursor v s2 Hv Ha Hr Ho) as (G1 & G2 & G3).
      rewrite G1, G2, G3, Ht. auto.
    - rewrite Hprom in Hcol. rewrite Hcol, run_app.
      destruct (quiet_await_run reg tr0 s2 Hq Hp Ha) as (G1 & G2 & G3 & G4 & G5).
      set (s3 := run reg tr0 s2) in *. rewrite run_cons.
      change (run reg [] ?x) with x. cbn [step]. unfold on_handler_settle. rewrite G1.
      rewrite Ht in G5.
      destruct (publish_no_cursor v s3 Hv G2 (eq_trans G4 Hr) (eq_trans G3 Ho))
        as (K1 & K2 & K3).
      rewrite K1, K2, K3, G5. auto. }
  destruct Hres as [H1 H2]. split; [exact H1|]. split; [exact H2|].
  intros tr' Htr'. apply run_keeps_settled; [exact Htr'|]. by rewrite H1.
Qed.

Lemma no_cursor_result_resolves_witness :
  reg_null !! "pub" = Some (fun _ => {| h_ops := []; h_result := HReturn JNull |}) ∧
  outcome (run reg_null [EvCollect "pub" []] init) = Resolved ∅.
Proof.
  assert (Hh : reg_null !! "pub" = Some (fun _ => {| h_ops := []; h_result := HReturn JNull |}))
    by reflexivity.
  split; [exact Hh|].
  destruct (no_cursor_result_resolves reg_null "pub" [] _ init [] JNull Hh eq_refl
              (or_introl (conj eq_refl eq_refl))) as (H1 & _).
  rewrite H1. reflexivity.
Defined.

(** ** Errors *)

Lemma fail_pending (e : JsError) (s : St) :
  outcome s = Pending →
  outcome (fail e s) = Rejected e ∧ _stopped (fail e s) = true ∧
  timer (fail e s) ≠ TArmed ∧ phase (fail e s) = PFailed.
Proof.
  intros Ho. destruct (fail_fields e s) as (_ & _ & _ & H4 & H5 & _ & H7 & H8).
  rewrite H4, Ho, H5, H7, H8. split; [done|]. split; [done|].
  split; [|done]. by destruct (timer s).
Qed.

(** C7 (amended): an error delivered while the call is pending (a
    synchronous throw of the handler, the rejection of its promise, of a
    _publishCursor, initialAddsSent or flush promise) goes through the one
    rejection path [fail]: cleanup, then the promise rejects with that
    very error value. *)
Theorem errors_reject_with_original (reg : Registry) (s : St) (ev : Event) (e : JsError) :
  error_event reg s ev = Some e →
  (outcome s = Pending ∨ ¬ not_collect ev) →
  (∃ s0, step reg ev s = fail e s0) ∧
  outcome (step reg ev s) = Rejected e ∧ _stopped (step reg ev s) = true ∧
  timer (step reg ev s) ≠ TArmed ∧ phase (step reg ev s) = PFailed.
Proof.
  intros Herr Hpend.
  assert (Hfail : ∃ s0, step reg ev s = fail e s0 ∧ outcome s0 = Pending).
  { destruct ev as [n a|op|[e'|v]|k [e'|h]|k [e'|]|k [e'|]|]; simpl in Herr |- *;
      try discriminate.
    - destruct (reg !! n) as [h|] eqn:Hh; [|discriminate].
      destruct (collect_found reg n a s h Hh) as (s2 & _ & _ & Ho & _ & _ & _ & Hcol).
      destruct (h_result (h a)); try discriminate. injection Herr as ->.
      exists s2. rewrite Hcol. auto.
    - destruct Hpend as [Ho|Hc]; [|done].
      unfold on_handler_settle. destruct (phase s); try discriminate.
      injection Herr as ->. eauto.
    - destruct Hpend as [Ho|Hc]; [|done].
      unfold on_started. destruct (phase s); try discriminate.
      destruct (rs !! k) as [[]|]; try discriminate. injection Herr as ->. eauto.
    - destruct Hpend as [Ho|Hc]; [|done].
      unfold on_initial. destruct (phase s); try discriminate.
      destruct (done !! k) as [[]|]; try discriminate. injection Herr as ->. eauto.
    - destruct Hpend as [Ho|Hc]; [|done].
      unfold on_flushed. destruct (phase s); try discriminate.
      destruct (done !! k) as [[]|]; try discriminate. injection Herr as ->. eauto. }
  destruct Hfail as (s0 & Hstep & Ho). rewrite Hstep.
  split; [eauto|]. by apply fail_pending.
Qed.

Lemma errors_reject_with_original_witness :
  let s := run reg_async [EvCollect "pub" []] init in
  error_event reg_async s (EvHandlerSettle (inl (ErrValue 1))) = Some (ErrValue 1) ∧
  outcome (step reg_async (EvHandlerSettle (inl (ErrValue 1))) s) = Rejected (ErrValue 1).
Proof.
  intros s.
  assert (H : error_event reg_async s (EvHandlerSettle (inl (ErrValue 1))) = Some (ErrValue 1))
    by reflexivity.
  split; [exact H|].
  apply (errors_reject_with_original reg_async s _ _ H (or_introl eq_refl)).
Defined.

(** C7 (as stated, refuted): an async handler whose promise rejects with
    E after the 5000 ms timer fired: collect has already rejected with the
    timeout error and stays so; the later .catch still runs cleanup. *)
Lemma late_error_is_not_reported :
  let s := run reg_async [EvCollect "pub" []; EvTimer; EvHandlerSettle (inl (ErrValue 1))] init in
  outcome s = Rejected (ErrTimeout "pub") ∧ outcome s ≠ Rejected (ErrValue 1) ∧
  _stopped s = true.
Proof. vm_compute. split; [done|]. split; [discriminate|done]. Qed.

(** ** A cursor that delivers no document *)

Section EmptyCursor.

Variable c : string.

Lemma snapshot_empty_key (ds : Docs) :
  no_docs c ds → key_in c ds → _generateResponse ds !! c = Some [].
Proof.
  intros Hno [b Hb]. unfold _generateResponse. rewrite lookup_fmap, Hb. simpl.
  assert (b = ∅) as ->.
  { apply map_empty. intros d. specialize (Hno d). unfold doc_at in Hno.
    by rewrite Hb in Hno. }
  by rewrite map_to_list_empty.
Qed.

Lemma snapshot_ok_settle (s s' : St) (x : Outcome) :
  snapshot_ok c s → outcome s' = settle (outcome s) x →
  (∀ S, x = Resolved S → S !! c = Some []) → snapshot_ok c s'.
Proof.
  intros Hok Hs' Hx S HS. rewrite Hs' in HS.
  destruct (outcome s) eqn:Eo; simpl in HS; try discriminate.
  - by apply Hx.
  - injection HS as ->. by apply Hok.
Qed.

Lemma succeed_ok (s : St) :
  no_docs c (_documents s) → key_in c (_documents s) → snapshot_ok c s →
  snapshot_ok c (succeed s).
Proof.
  intros Hno Hkey Hok. destruct (succeed_fields s) as (_ & _ & _ & H4 & _).
  eapply snapshot_ok_settle; [exact Hok|exact H4|].
  intros S [= <-]. by apply snapshot_empty_key.
Qed.

Lemma signal_ready_ok (s : St) :
  no_docs c (_documents s) → (adds_p s = true → key_in c (_documents s)) →
  snapshot_ok c s →
  snapshot_ok c (signal_ready s) ∧ _documents (signal_ready s) = _documents s ∧
  adds_p (signal_ready s) = adds_p s ∧ phase (signal_ready s) = phase s.
Proof.
  intros Hno Ha Hok. unfold signal_ready. destruct (ready_p s); [done|].
  cbn [adds_p set_ready_p]. destruct (adds_p s) eqn:E.
  - destruct (succeed_fields (set_ready_p true s)) as (H1 & _ & H3 & _ & H5 & _).
    rewrite H1, H3, H5. cbn. split; [|done].
    apply succeed_ok; [done|by apply Ha|done].
  - done.
Qed.

Lemma ready_ok (s : St) :
  no_docs c (_documents s) → (adds_p s = true → key_in c (_documents s)) →
  snapshot_ok c s →
  snapshot_ok c (ready s) ∧ _documents (ready s) = _documents s ∧
  adds_p (ready s) = adds_p s ∧ phase (ready s) = phase s.
Proof.
  intros Hno Ha Hok. unfold ready. destruct (_readyResolver s); [|done].
  by apply signal_ready_ok.
Qed.

Lemma signal_adds_ok (s : St) :
  no_docs c (_documents s) → key_in c (_documents s) → snapshot_ok c s →
  snapshot_ok c (signal_adds s) ∧ _documents (signal_adds s) = _documents s ∧
  adds_p (signal_adds s) = true ∧ phase (signal_adds s) = phase s.
Proof.
  intros Hno Hkey Hok. unfold signal_adds. destruct (adds_p s) eqn:E; [done|].
  cbn [ready_p set_adds_p]. destruct (ready_p s).
  - destruct (succeed_fields (set_adds_p true s)) as (H1 & _ & H3 & _ & H5 & _).
    rewrite H1, H3, H5. cbn. split; [|done]. by apply succeed_ok.
  - done.
Qed.

Lemma fail_inv (e : JsError) (s : St) :
  empty_cursor_inv c s → empty_cursor_inv c (fail e s).
Proof.
  intros (Hno & Hok & Ha & _).
  destruct (fail_fields e s) as (H1 & _ & H3 & H4 & H5 & _).
  unfold empty_cursor_inv. rewrite H1, H3, H5. split; [done|]. split; [|done].
  eapply snapshot_ok_settle; [exact Hok|exact H4|done].
Qed.

Lemma store_op_key_in (op : Op) (ds : Docs) (c' : string) :
  key_in c' ds → key_in c' (store_op op ds).
Proof.
  unfold key_in. intros Hk.
  assert (Hens : ∀ c1 ds1, is_Some (ds1 !! c') → is_Some (_ensureCollectionInRes c1 ds1 !! c')).
  { intros c1 ds1 H1. unfold _ensureCollectionInRes.
    destruct (decide (c1 = c')) as [->|]; [by rewrite lookup_insert_eq|by rewrite lookup_insert_ne]. }
  destruct op as [c1 i f|c1 i f|c1 i| |]; simpl; try done.
  - unfold added. destruct (decide (c1 = c')) as [->|]; [by rewrite lookup_insert_eq|].
    rewrite lookup_insert_ne by done. by apply Hens.
  - unfold changed. destruct (bucket c1 _ !! i).
    + destruct (decide (c1 = c')) as [->|]; [by rewrite lookup_insert_eq|].
      rewrite lookup_insert_ne by done. by apply Hens.
    + by apply Hens.
  - unfold removed. destruct (decide (c1 = c')) as [->|]; [by rewrite lookup_insert_eq|].
    rewrite lookup_insert_ne by done. by apply Hens.
Qed.

Lemma store_op_no_docs (op : Op) (ds : Docs) :
  (∀ i f, op ≠ MAdded c i f) → no_docs c ds → no_docs c (store_op op ds).
Proof.
  intros Hop Hno d. rewrite doc_at_store_op, Hno.
  destruct op as [c1 i f|c1 i f|c1 i| |]; simpl; try done.
  - case_decide as Hci; [|done]. destruct Hci as [-> ->]. by destruct (Hop d f).
  - by case_decide.
  - by case_decide.
Qed.

Lemma store_op_inv (op : Op) (s : St) :
  (∀ i f, op ≠ MAdded c i f) → empty_cursor_inv c s →
  empty_cursor_inv c (set_documents (store_op op (_documents s)) s).
Proof.
  intros Hop (Hno & Hok & Ha & Hph). unfold empty_cursor_inv.
  cbn [_documents set_documents adds_p phase]. split; [by apply store_op_no_docs|].
  split; [done|]. split.
  - intros H. apply store_op_key_in. by apply Ha.
  - destruct (phase s); try done; by apply store_op_key_in.
Qed.

Lemma apply_op_inv (op : Op) (s : St) :
  (∀ i f, op ≠ MAdded c i f) → empty_cursor_inv c s → empty_cursor_inv c (apply_op op s).
Proof.
  intros Hop Hinv. pose proof Hinv as (Hno & Hok & Ha & Hph).
  destruct op as [c1 i f|c1 i f|c1 i| |].
  - by apply (store_op_inv (MAdded c1 i f)).
  - by apply (store_op_inv (MChanged c1 i f)).
  - by apply (store_op_inv (MRemoved c1 i)).
  - simpl. destruct (ready_ok s Hno Ha Hok) as (G1 & G2 & G3 & G4).
    unfold empty_cursor_inv. rewrite G2, G3, G4. done.
  - simpl. destruct (stop_fields s) as (G1 & _ & G3 & G4 & G5 & _).
    unfold empty_cursor_inv, snapshot_ok. rewrite G1, G3, G4, G5. done.
Qed.

Lemma ensure_key_in (c' c1 : string) (ds : Docs) :
  key_in c' ds ∨ c1 = c' → key_in c' (_ensureCollectionInRes c1 ds).
Proof.
  unfold key_in, _ensureCollectionInRes. intros [H| ->]; [|by rewrite lookup_insert_eq].
  destruct (decide (c1 = c')) as [->|]; [by rewrite lookup_insert_eq|by rewrite lookup_insert_ne].
Qed.

Lemma foldl_ensure_key_in (c' : string) (l : list jsval) (ds : Docs) :
  key_in c' ds ∨ (∃ x, x ∈ l ∧ collection_name x = c') →
  key_in c' (foldl (fun ds cur => _ensureCollectionInRes (collection_name cur) ds) ds l).
Proof.
  revert ds. induction l as [|y l IH]; intros ds H; simpl.
  - destruct H as [H|(x & Hx & _)]; [done|by apply not_elem_of_nil in Hx].
  - apply IH. destruct H as [H|(x & Hx & Hc)].
    + left. apply ensure_key_in. by left.
    + apply elem_of_cons in Hx as [->|Hx].
      * left. apply ensure_key_in. by right.
      * right. by exists x.
Qed.

Lemma foldl_ensure_no_docs (l : list jsval) (ds : Docs) :
  no_docs c ds →
  no_docs c (foldl (fun ds cur => _ensureCollectionInRes (collection_name cur) ds) ds l).
Proof.
  revert ds. induction l as [|y l IH]; intros ds H; simpl; [done|].
  apply IH. intros d. rewrite doc_at_ensure. apply H.
Qed.

Lemma publish_cursor_inv (cur : CursorInfo) (s : St) :
  cur_collection cur = c → empty_cursor_inv c s →
  empty_cursor_inv c (_publishHandlerResult (JObj (Some cur)) s).
Proof.
  intros Hc (Hno & Hok & Ha & Hph). unfold _publishHandlerResult. cbn.
  assert (key_in c (_ensureCollectionInRes (cur_collection cur) (_documents s))) as Hk.
  { apply ensure_key_in. by right. }
  unfold empty_cursor_inv, snapshot_ok in *. cbn. split; [|done].
  intros d. exact (foldl_ensure_no_docs [JObj (Some cur)] _ Hno d).
Qed.

Lemma set_phase_inv (p : Phase) (s : St) :
  empty_cursor_inv c s →
  match p with
  | PStarting _ | PInitial _ _ | PFlush _ _ => key_in c (_documents s)
  | _ => True
  end →
  empty_cursor_inv c (set_phase p s).
Proof. intros (Hno & Hok & Ha & _) Hp. done. Qed.

Lemma phase_key_in (s : St) :
  empty_cursor_inv c s →
  (∀ rs, phase s = PStarting rs → key_in c (_documents s)) ∧
  (∀ hs d, phase s = PInitial hs d → key_in c (_documents s)) ∧
  (∀ hs d, phase s = PFlush hs d → key_in c (_documents s)).
Proof.
  intros (_ & _ & _ & Hph).
  split; [|split]; intros *; intros Ep; by rewrite Ep in Hph.
Qed.

Lemma step_inv (reg : Registry) (cur : CursorInfo) (ev : Event) (s : St) :
  cur_collection cur = c →
  (∀ n a, ev ≠ EvCollect n a) →
  (∀ i f, ev ≠ EvOp (MAdded c i f)) →
  (∀ x, ev = EvHandlerSettle (inr x) → x = JObj (Some cur)) →
  empty_cursor_inv c s → empty_cursor_inv c (step reg ev s).
Proof.
  intros Hc Hnc Hadd Hset Hinv.
  destruct (phase_key_in s Hinv) as (Kst & Kin & Kfl).
  destruct ev as [n a|op|r|k r|k r|k r|]; cbn [step].
  - by destruct (Hnc n a).
  - apply apply_op_inv; [|done]. intros i f ->. by apply (Hadd i f).
  - unfold on_handler_settle. destruct (phase s); try done.
    destruct r as [e|v]; [by apply fail_inv|].
    rewrite (Hset v eq_refl). by apply publish_cursor_inv.
  - unfold on_started. destruct (phase s) as [| |rs| | | |] eqn:Ep; try done.
    destruct (rs !! k) as [[]|]; try done.
    destruct r as [e|h]; [by apply fail_inv|].
    pose proof (Kst rs eq_refl) as Hk.
    destruct (all_some _).
    + destruct Hinv as (Hno & Hok & Ha & _). done.
    + by apply set_phase_inv.
  - unfold on_initial. destruct (phase s) as [| | |hs d| | |] eqn:Ep; try done.
    destruct (d !! k) as [[]|]; try done.
    destruct r as [e|]; [by apply fail_inv|].
    pose proof (Kin hs d eq_refl) as Hk.
    destruct (forallb _ _); by apply set_phase_inv.
  - unfold on_flushed. destruct (phase s) as [| | | |hs d| |] eqn:Ep; try done.
    destruct (d !! k) as [[]|]; try done.
    destruct r as [e|]; [by apply fail_inv|].
    pose proof (Kfl hs d eq_refl) as Hk.
    destruct (forallb _ _); [|by apply set_phase_inv].
    destruct Hinv as (Hno & Hok & Ha & _).
    destruct (signal_adds_ok (set_phase PDone s) Hno Hk Hok) as (G1 & G2 & G3 & G4).
    assert (no_docs c (_documents (signal_adds (set_phase PDone s)))) as Hno'
      by (rewrite G2; exact Hno).
    assert (key_in c (_documents (signal_adds (set_phase PDone s)))) as Hk'
      by (rewrite G2; exact Hk).
    destruct (ready_ok _ Hno' (fun _ => Hk') G1) as (R1 & R2 & R3 & R4).
    unfold empty_cursor_inv. rewrite R2, R3, R4, G2, G3, G4. cbn.
    repeat split; auto.
  - unfold on_timer. destruct (timer s); try done.
    destruct Hinv as (Hno & Hok & Ha & Hph).
    destruct (reject_fields (ErrTimeout (call_name s)) (set_timer TFired s))
      as (G1 & _ & G3 & G4 & G5 & _).
    unfold empty_cursor_inv. rewrite G1, G3, G5. cbn. split; [done|]. split; [|done].
    eapply snapshot_ok_settle; [exact Hok|exact G4|done].
Qed.

Lemma run_inv (reg : Registry) (cur : CursorInfo) (tr : list Event) (s : St) :
  cur_collection cur = c →
  (∀ n a, EvCollect n a ∉ tr) →
  (∀ i f, EvOp (MAdded c i f) ∉ tr) →
  (∀ x, EvHandlerSettle (inr x) ∈ tr → x = JObj (Some cur)) →
  empty_cursor_inv c s → empty_cursor_inv c (run reg tr s).
Proof.
  revert s. induction tr as [|ev tr IH]; intros s Hc Hnc Hadd Hset Hinv; [done|].
  rewrite run_cons. apply IH; [done| | | |].
  - intros n a Hin. apply (Hnc n a). by right.
  - intros i f Hin. apply (Hadd i f). by right.
  - intros x Hin. apply Hset. by right.
  - apply (step_inv reg cur); [done| | | |done].
    + intros n a ->. apply (Hnc n a). by left.
    + intros i f ->. apply (Hadd i f). by left.
    + intros x ->. apply Hset. by left.
Qed.

Lemma apply_ops_inv (ops : list Op) (s : St) :
  (∀ op, op ∈ ops → ∀ i f, op ≠ MAdded c i f) →
  empty_cursor_inv c s → empty_cursor_inv c (foldl (fun s op => apply_op op s) s ops).
Proof.
  revert s. induction ops as [|op ops IH]; intros s Hops Hinv; simpl; [done|].
  apply IH.
  - intros op' Hin. apply Hops. by right.
  - apply apply_op_inv; [|done]. apply Hops. by left.
Qed.

Lemma collect_inv (reg : Registry) (name : string) (args : list jsval) (h : Handler)
    (cur : CursorInfo) (s : St) :
  cur_collection cur = c → reg !! name = Some h →
  (∀ op, op ∈ h_ops (h args) → ∀ i f, op ≠ MAdded c i f) →
  h_result (h args) = HReturn (JObj (Some cur)) ∨ h_result (h args) = HPromise →
  empty_cursor_inv c (collect reg name args s).
Proof.
  intros Hc Hreg Hops Hres. unfold collect.
  destruct (reg !! name) as [h'|] eqn:E; [|congruence].
  injection Hreg as ->. cbv zeta.
  assert (empty_cursor_inv c (foldl (fun s op => apply_op op s)
            (mkSt ∅ [] false (stop_log s) true false false TArmed Pending name
               PAwaitHandler (invoked s ++ [(name, args)])) (h_ops (h args)))) as Hinv.
  { apply apply_ops_inv; [done|]. by repeat split. }
  destruct Hres as [-> | ->]; [|done]. by apply publish_cursor_inv.
Qed.

End EmptyCursor.

(** C6: _publishHandlerResult registers the collection of every retained
    cursor (_ensureCollectionInRes) before the cursors' observations are
    started (phase [PStarting]); hence a collect call whose handler returns
    a single cursor (directly or through its promise) that delivers no
    document, and during which no added() call targets that collection,
    resolves, if it resolves, with a snapshot mapping the cursor's
    collection to an empty list. *)
Theorem single_empty_cursor_key_present (reg : Registry) (name : string) (args : list jsval)
    (h : Handler) (cur : CursorInfo) (tr : list Event) (s : St) (S : Snapshot) :
  reg !! name = Some h →
  (∀ op, op ∈ h_ops (h args) → ∀ i f, op ≠ MAdded (cur_collection cur) i f) →
  h_result (h args) = HReturn (JObj (Some cur)) ∨ h_result (h args) = HPromise →
  (∀ n a, EvCollect n a ∉ tr) →
  (∀ i f, EvOp (MAdded (cur_collection cur) i f) ∉ tr) →
  (∀ x, EvHandlerSettle (inr x) ∈ tr → x = JObj (Some cur)) →
  outcome (run reg tr (collect reg name args s)) = Resolved S →
  (∀ v s' x, x ∈ _extractCursors v →
     key_in (collection_name x) (_documents (_publishHandlerResult v s')) ∧
     ∃ rs, phase (_publishHandlerResult v s') = PStarting rs) ∧
  S !! cur_collection cur = Some [].
Proof.
  intros Hreg Hops Hres Hnc Hadd Hset Hout. split.
  - intros v s' x Hx. unfold _publishHandlerResult.
    destruct (_extractCursors v) as [|y ys] eqn:E; [by apply not_elem_of_nil in Hx|].
    cbn [_documents phase set_phase set_documents]. split; [|by eexists].
    apply foldl_ensure_key_in. right. by exists x.
  - assert (Hinv : empty_cursor_inv (cur_collection cur) (run reg tr (collect reg name args s))).
    { apply (run_inv _ reg cur); try done.
      by apply (collect_inv _ reg name args h cur). }
    destruct Hinv as (_ & Hok & _). by apply Hok.
Qed.

Lemma single_empty_cursor_key_present_witness :
  outcome (run reg_cursor [EvStarted 0 (inr 7); EvInitial 0 None; EvFlushed 0 None]
             (collect reg_cursor "pub" [] init)) = Resolved {[ "c" := [] ]} ∧
  ({[ "c" := [] ]} : Snapshot) !! "c" = Some [].
Proof.
  assert (Hout : outcome (run reg_cursor [EvStarted 0 (inr 7); EvInitial 0 None; EvFlushed 0 None]
             (collect reg_cursor "pub" [] init)) = Resolved {[ "c" := [] ]})
    by (vm_compute; reflexivity).
  split; [exact Hout|].
  refine (proj2 (single_empty_cursor_key_present reg_cursor "pub" []
            (fun _ => {| h_ops := []; h_result := HReturn cursor_c |})
            {| cur_collection := "c" |} _ init _ eq_refl _ (or_introl eq_refl) _ _ _ Hout)).
  - intros op Hin. by apply not_elem_of_nil in Hin.
  - intros n a. not_in_list.
  - intros i f. not_in_list.
  - intros x. not_in_list.
Defined.

Lemma step_norm (reg : Registry) (ev : Event) (s : St) :
  adds_p s = false → (phase s ≠ PIdle → _readyResolver s = true) →
  norm (step reg ev (set_ready_p true s)) = norm (step reg ev (set_ready_p false s)).
Proof.
  destruct s as [d oh st sl rr rp ap tm oc cn ph iv]. cbn [adds_p phase _readyResolver].
  intros -> Hrr.
  destruct ev as [n a|op|r|k r|k r|k r|]; cbn [step].
  - unfold collect. cbn [set_ready_p stop_log invoked]. destruct (reg !! n); [reflexivity|].
    reflexivity.
  - destruct op; try reflexivity.
    + cbn. destruct rr; [|reflexivity]. cbn. reflexivity.
    + cbn. destruct st; reflexivity.
  - unfold on_handler_settle. cbn [phase set_ready_p].
    destruct ph; try reflexivity.
    destruct r as [e|v].
    + unfold fail, reject, cleanup, stop. cbn. destruct st; reflexivity.
    + unfold _publishHandlerResult. destruct (_extractCursors v); [|reflexivity].
      rewrite Hrr by done. cbn. destruct st; reflexivity.
  - unfold on_started. cbn [phase set_ready_p]. destruct ph; try reflexivity.
    repeat case_match; try reflexivity; unfold fail, reject, cleanup, stop; cbn; destruct st; reflexivity.
  - unfold on_initial. cbn [phase set_ready_p]. destruct ph; try reflexivity.
    repeat case_match; try reflexivity; unfold fail, reject, cleanup, stop; cbn; destruct st; reflexivity.
  - unfold on_flushed. cbn [phase set_ready_p]. destruct ph; try reflexivity.
    repeat case_match; try reflexivity; try (unfold fail, reject, cleanup, stop; cbn; destruct st; reflexivity).
    rewrite Hrr by done. cbn. destruct st; reflexivity.
  - unfold on_timer. cbn [timer set_ready_p]. destruct tm; reflexivity.
Qed.

Lemma ready_signal_adds_flags (s : St) :
  _readyResolver s = true →
  adds_p (ready (signal_adds s)) = true ∧ ready_p (ready (signal_adds s)) = true ∧
  _readyResolver (ready (signal_adds s)) = true ∧ phase (ready (signal_adds s)) = phase s.
Proof.
  destruct s as [d oh st sl rr rp ap tm oc cn ph iv]. cbn [_readyResolver]. intros ->.
  unfold ready, signal_adds, signal_ready, succeed, cleanup, stop.
  destruct ap, rp, st; cbn; auto.
Qed.

Lemma collect_ready_inv (reg : Registry) (n : string) (a : list jsval) (s : St) :
  ready_inv s → ready_inv (collect reg n a s).
Proof.
  intros Hinv. unfold collect. destruct (reg !! n) as [h|]; [|exact Hinv].
  cbv zeta.
  set (s1 := mkSt ∅ [] false (stop_log s) true false false TArmed Pending n PAwaitHandler
               (invoked s ++ [(n, a)])).
  pose proof (apply_ops_quiet (h_ops (h a)) s1 eq_refl) as HQ. cbv zeta in HQ.
  set (s2 := foldl (fun s op => apply_op op s) s1 (h_ops (h a))) in *.
  destruct HQ as (O1 & A1 & P1 & R1 & T1).
  destruct (h_result (h a)) as [e|v|].
  - destruct (fail_fields e s2) as (_ & _ & F3 & _ & F5 & F6 & _).
    split; rewrite ?F3, ?F6; [by rewrite A1|intros _; exact R1].
  - unfold _publishHandlerResult. destruct (_extractCursors v) as [|y ys].
    + destruct (ready_signal_adds_flags (set_phase PDone s2) R1) as (G1 & G2 & G3 & _).
      split; intros; assumption.
    + split; cbn [adds_p phase _readyResolver set_phase set_documents]; [by rewrite A1|].
      intros _. exact R1.
  - split; [by rewrite A1|intros _; exact R1].
Qed.

Lemma step_ready_inv (reg : Registry) (ev : Event) (s : St) :
  ready_inv s → ready_inv (step reg ev s).
Proof.
  intros Hinv. destruct ev as [n a|op|r|k r|k r|k r|]; cbn [step].
  - by apply collect_ready_inv.
  - destruct s as [d oh st sl rr rp ap tm oc cn ph iv].
    destruct Hinv as [H1 H2]; cbn in H1, H2.
    destruct op; unfold ready_inv; cbn; try done.
    + destruct rr; [|done]. unfold signal_ready, succeed, cleanup, stop.
      destruct rp, ap, st; cbn; done.
    + destruct st; done.
  - destruct s as [d oh st sl rr rp ap tm oc cn ph iv].
    destruct Hinv as [H1 H2]; cbn in H1, H2.
    unfold on_handler_settle; cbn [phase]. destruct ph; try (split; done).
    destruct r as [e|v].
    + unfold fail, reject, cleanup, stop. destruct st; split; cbn; auto.
    + unfold _publishHandlerResult. destruct (_extractCursors v).
      * rewrite H2 by done.
        destruct (ready_signal_adds_flags (set_phase PDone (mkSt d oh st sl true rp ap tm oc cn PAwaitHandler iv)) eq_refl) as (G1 & G2 & G3 & _).
        split; intros; assumption.
      * split; cbn; auto.
  - destruct s as [d oh st sl rr rp ap tm oc cn ph iv].
    destruct Hinv as [H1 H2]; cbn in H1, H2.
    unfold on_started; cbn [phase]. destruct ph; try (split; done).
    repeat case_match; try (split; done); unfold fail, reject, cleanup, stop;
      try destruct st; split; cbn; auto.
  - destruct s as [d oh st sl rr rp ap tm oc cn ph iv].
    destruct Hinv as [H1 H2]; cbn in H1, H2.
    unfold on_initial; cbn [phase]. destruct ph; try (split; done).
    repeat case_match; try (split; done); unfold fail, reject, cleanup, stop;
      try destruct st; split; cbn; auto.
  - destruct s as [d oh st sl rr rp ap tm oc cn ph iv].
    destruct Hinv as [H1 H2]; cbn in H1, H2.
    unfold on_flushed; cbn [phase]. destruct ph; try (split; done).
    repeat case_match; try (split; done).
    + unfold fail, reject, cleanup, stop. destruct st; split; cbn; auto.
    + rewrite H2 by done.
      destruct (ready_signal_adds_flags (set_phase PDone (mkSt d oh st sl true rp ap tm oc cn (PFlush hs done) iv)) eq_refl) as (G1 & G2 & G3 & _).
      split; intros; assumption.
    + split; cbn; auto.
  - destruct s as [d oh st sl rr rp ap tm oc cn ph iv].
    destruct Hinv as [H1 H2]; cbn in H1, H2.
    unfold on_timer; cbn [timer]. destruct tm; split; cbn; auto.
Qed.

Lemma norm_adds (s : St) : adds_p (norm s) = adds_p s.
Proof. unfold norm. destruct (adds_p s) eqn:E; [done|]. exact E. Qed.

Lemma norm_split (s : St) : adds_p s = false → s = set_ready_p (ready_p s) (norm s).
Proof. unfold norm. intros ->. by destruct s. Qed.

Lemma ready_ready (s : St) : ready (ready s) = ready s.
Proof.
  destruct s as [d oh st sl rr rp ap tm oc cn ph iv].
  unfold ready, signal_ready, succeed, cleanup, stop.
  destruct rr, rp, ap, st; reflexivity.
Qed.

Lemma ready_norm (s : St) : ready_inv s → norm (ready s) = norm s.
Proof.
  destruct s as [d oh st sl rr rp ap tm oc cn ph iv]. intros [H1 _]. cbn in H1.
  unfold ready, signal_ready, norm. cbn. destruct rr, rp, ap; try reflexivity.
  by discriminate H1.
Qed.

Lemma step_norm_rel (reg : Registry) (ev : Event) (s1 s2 : St) :
  ready_inv s1 → ready_inv s2 → norm s1 = norm s2 →
  norm (step reg ev s1) = norm (step reg ev s2).
Proof.
  intros Hi1 Hi2 Heq.
  assert (adds_p s2 = adds_p s1) as A21 by (by rewrite <- norm_adds, <- Heq, norm_adds).
  destruct (adds_p s1) eqn:A1.
  - unfold norm in Heq. rewrite A1, A21 in Heq. by subst.
  - pose proof (norm_split s1 A1) as E1. pose proof (norm_split s2 A21) as E2.
    rewrite Heq in E1.
    assert (Hb : ∀ b1 b2, norm (step reg ev (set_ready_p b1 (norm s2))) =
                         norm (step reg ev (set_ready_p b2 (norm s2)))).
    { assert (adds_p (norm s2) = false) as A0 by (by rewrite norm_adds).
      assert (phase (norm s2) ≠ PIdle → _readyResolver (norm s2) = true) as R0.
      { unfold norm. rewrite A21. apply Hi2. }
      intros [] []; [reflexivity|by apply step_norm|symmetry; by apply step_norm|reflexivity]. }
    transitivity (norm (step reg ev (set_ready_p (ready_p s1) (norm s2)))).
    { by rewrite <- E1. }
    transitivity (norm (step reg ev (set_ready_p (ready_p s2) (norm s2)))).
    { apply Hb. }
    by rewrite <- E2.
Qed.

Lemma run_norm_rel (reg : Registry) (tr : list Event) (s1 s2 : St) :
  ready_inv s1 → ready_inv s2 → norm s1 = norm s2 →
  norm (run reg tr s1) = norm (run reg tr s2).
Proof.
  revert s1 s2. induction tr as [|ev tr IH]; intros s1 s2 Hi1 Hi2 Heq; [done|].
  rewrite !run_cons. apply IH; try by apply step_ready_inv.
  by apply step_norm_rel.
Qed.

Lemma run_ready_inv (reg : Registry) (tr : list Event) (s : St) :
  ready_inv s → ready_inv (run reg tr s).
Proof.
  revert s. induction tr as [|ev tr IH]; intros s Hi; [done|].
  rewrite run_cons. apply IH. by apply step_ready_inv.
Qed.

(** C10: ready() only resolves readyPromise through the stored
    _readyResolver.  Before the first collect call there is no resolver
    and ready() leaves the instance unchanged; a second ready() is the
    identity on the state left by the first; and in every state reached
    by a sequence of events, including after a call settled, a ready()
    call makes no difference for any continuation of events, up to
    whether the already inert readyPromise is marked resolved ([norm]). *)
Theorem ready_extra_calls_noop (reg : Registry) (tr tr' : list Event) :
  ready init = init ∧
  (∀ s, ready (ready s) = ready s) ∧
  norm (run reg tr' (ready (run reg tr init))) = norm (run reg tr' (run reg tr init)).
Proof.
  split; [reflexivity|]. split; [exact ready_ready|].
  assert (Hi : ready_inv (run reg tr init)).
  { apply run_ready_inv. split; [done|]. by intros []. }
  apply run_norm_rel; [|done|].
  - exact (step_ready_inv reg (EvOp MReady) _ Hi).
  - by apply ready_norm.
Qed.

(** ** The document store: further properties *)

Lemma bucket_insert_eq (ds : Docs) (c : string) (b : gmap string Doc) :
  bucket c (<[c := b]> ds) = b.
Proof. unfold bucket. by rewrite lookup_insert_eq. Qed.

Lemma bucket_insert_ne (ds : Docs) (c c' : string) (b : gmap string Doc) :
  c' ≠ c → bucket c (<[c' := b]> ds) = bucket c ds.
Proof. intros Hne. unfold bucket. by rewrite lookup_insert_ne. Qed.

Lemma store_op_shape (op : Op) (c i : string) (ds : Docs) :
  op_target op = Some (c, i) →
  store_op op ds = <[c := partial_alter (op_update op) i (bucket c ds)]> ds.
Proof.
  destruct op as [c' i' f|c' i' f|c' i'| |]; simpl; intros [= <- <-].
  - unfold added, _ensureCollectionInRes. rewrite bucket_insert_eq, insert_insert_eq.
    reflexivity.
  - unfold changed, _ensureCollectionInRes. rewrite bucket_insert_eq.
    change (partial_alter (fmap (fun doc => f ∪ doc)) i' (bucket c' ds))
      with (alter (fun doc => f ∪ doc) i' (bucket c' ds)).
    rewrite alter_alt. destruct (bucket c' ds !! i'); [by rewrite insert_insert_eq|done].
  - unfold removed, _ensureCollectionInRes. rewrite bucket_insert_eq, insert_insert_eq.
    reflexivity.
Qed.

Lemma doc_at_bucket (ds : Docs) (c i : string) : doc_at ds c i = bucket c ds !! i.
Proof. by rewrite bucket_lookup. Qed.

(** added(collection, id, fields) stores { _id: id, ...fields }: the
    document has every field of [fields], and its _id is [id] unless
    [fields] has an _id of its own, which wins. *)
Theorem added_document (ds : Docs) (c i : string) (f : Doc) :
  ∃ d, doc_at (added c i f ds) c i = Some d ∧
    d !! "_id" = Some (default (JStr i) (f !! "_id")) ∧
    ∀ k, k ≠ "_id" → d !! k = f !! k.
Proof.
  exists (f ∪ {[ "_id" := JStr i ]}). split; [|split].
  - change (added c i f ds) with (store_op (MAdded c i f) ds).
    rewrite doc_at_store_op. simpl. by rewrite decide_True.
  - rewrite lookup_union, lookup_singleton_eq. by destruct (f !! "_id").
  - intros k Hk. rewrite lookup_union, lookup_singleton_ne by done.
    by destruct (f !! k).
Qed.

(** changed(collection, id, fields) on an existing document is
    Object.assign(doc, fields): the fields of [fields] are overwritten or
    added, every other field of the document is kept. *)
Theorem changed_document (ds : Docs) (c i : string) (f d : Doc) :
  doc_at ds c i = Some d →
  ∃ d', doc_at (changed c i f ds) c i = Some d' ∧
    ∀ k, d' !! k = match f !! k with Some v => Some v | None => d !! k end.
Proof.
  intros Hd. exists (f ∪ d). split.
  - change (changed c i f ds) with (store_op (MChanged c i f) ds).
    rewrite doc_at_store_op, Hd. simpl. by rewrite decide_True.
  - intros k. rewrite lookup_union. by destruct (f !! k), (d !! k).
Qed.

Lemma changed_document_witness :
  doc_at (added "c" "x" {[ "a" := JNum 1 ]} ∅) "c" "x"
    = Some ({[ "a" := JNum 1; "_id" := JStr "x" ]} : Doc) ∧
  ∃ d', doc_at (changed "c" "x" {[ "b" := JNum 2 ]} (added "c" "x" {[ "a" := JNum 1 ]} ∅)) "c" "x"
          = Some d' ∧
    ∀ k, d' !! k = match ({[ "b" := JNum 2 ]} : Doc) !! k with
                   | Some v => Some v
                   | None => ({[ "a" := JNum 1; "_id" := JStr "x" ]} : Doc) !! k end.
Proof.
  assert (H : doc_at (added "c" "x" {[ "a" := JNum 1 ]} ∅) "c" "x"
                = Some ({[ "a" := JNum 1; "_id" := JStr "x" ]} : Doc)) by reflexivity.
  split; [exact H|]. exact (changed_document _ "c" "x" _ _ H).
Defined.

(** A later added or removed of (collection, id) erases the effect of an
    earlier added, changed or removed of the same (collection, id): the
    store is the one the later call alone gives. *)
Theorem store_later_call_overrides (op : Op) (c i : string) (f : Doc) (ds : Docs) :
  op_target op = Some (c, i) →
  added c i f (store_op op ds) = added c i f ds ∧
  removed c i (store_op op ds) = removed c i ds.
Proof.
  intros Ht. rewrite (store_op_shape op c i ds Ht).
  change (added c i f ?x) with (store_op (MAdded c i f) x).
  change (removed c i ?x) with (store_op (MRemoved c i) x).
  rewrite !(store_op_shape (MAdded c i f) c i _ eq_refl).
  rewrite !(store_op_shape (MRemoved c i) c i _ eq_refl).
  rewrite !bucket_insert_eq, !insert_insert_eq, !partial_alter_partial_alter_eq.
  split; reflexivity.
Qed.

Lemma store_later_call_overrides_witness :
  op_target (MChanged "c" "x" {[ "a" := JNum 1 ]}) = Some ("c", "x") ∧
  added "c" "x" ∅ (store_op (MChanged "c" "x" {[ "a" := JNum 1 ]}) {[ "c" := {[ "x" := ∅ ]} ]})
    = added "c" "x" ∅ {[ "c" := {[ "x" := ∅ ]} ]}.
Proof.
  assert (H : op_target (MChanged "c" "x" {[ "a" := JNum 1 ]}) = Some ("c", "x")) by reflexivity.
  split; [exact H|]. exact (proj1 (store_later_call_overrides _ "c" "x" ∅ _ H)).
Defined.

(** Context calls on different (collection, id) pairs commute: the store
    does not depend on the order in which they arrive. *)
Theorem store_ops_commute (op1 op2 : Op) (c1 i1 c2 i2 : string) (ds : Docs) :
  op_target op1 = Some (c1, i1) → op_target op2 = Some (c2, i2) →
  (c1, i1) ≠ (c2, i2) →
  store_op op1 (store_op op2 ds) = store_op op2 (store_op op1 ds).
Proof.
  intros H1 H2 Hne.
  rewrite (store_op_shape op2 c2 i2 ds H2), (store_op_shape op1 c1 i1 ds H1).
  rewrite (store_op_shape op1 c1 i1 _ H1), (store_op_shape op2 c2 i2 _ H2).
  destruct (decide (c1 = c2)) as [<-|Hc].
  - assert (i1 ≠ i2) as Hi by congruence.
    rewrite !bucket_insert_eq, !insert_insert_eq.
    by rewrite partial_alter_partial_alter_ne.
  - rewrite (bucket_insert_ne ds c1 c2) by done.
    rewrite (bucket_insert_ne ds c2 c1) by done.
    by apply insert_insert_ne.
Qed.

Lemma store_ops_commute_witness :
  op_target (MAdded "c" "x" ∅) = Some ("c", "x") ∧
  op_target (MRemoved "c" "y") = Some ("c", "y") ∧
  store_op (MAdded "c" "x" ∅) (store_op (MRemoved "c" "y") ∅)
    = store_op (MRemoved "c" "y") (store_op (MAdded "c" "x" ∅) ∅).
Proof.
  assert (H1 : op_target (MAdded "c" "x" ∅) = Some ("c", "x")) by reflexivity.
  assert (H2 : op_target (MRemoved "c" "y") = Some ("c", "y")) by reflexivity.
  split; [exact H1|]. split; [exact H2|].
  apply (store_ops_commute _ _ "c" "x" "c" "y" ∅ H1 H2). congruence.
Defined.

(** A context call on (collection, id) registers the collection and
    touches nothing else: the buckets of other collections and the other
    documents of the collection are unchanged. *)
Theorem store_op_frame (op : Op) (c i : string) (ds : Docs) :
  op_target op = Some (c, i) →
  is_Some (store_op op ds !! c) ∧
  (∀ c', c' ≠ c → store_op op ds !! c' = ds !! c') ∧
  (∀ i', i' ≠ i → doc_at (store_op op ds) c i' = doc_at ds c i').
Proof.
  intros Ht. rewrite (store_op_shape op c i ds Ht). split; [|split].
  - by rewrite lookup_insert_eq.
  - intros c' Hc. by rewrite lookup_insert_ne.
  - intros i' Hi. rewrite doc_at_bucket, bucket_insert_eq, lookup_partial_alter.
    rewrite decide_False by done. by rewrite doc_at_bucket.
Qed.

Lemma store_op_frame_witness :
  op_target (MRemoved "c" "x") = Some ("c", "x") ∧
  is_Some (store_op (MRemoved "c" "x") ∅ !! "c").
Proof.
  assert (H : op_target (MRemoved "c" "x") = Some ("c", "x")) by reflexivity.
  split; [exact H|]. exact (proj1 (store_op_frame _ "c" "x" ∅ H)).
Defined.

(** _generateResponse(): the snapshot has exactly the collections of the
    store, and the list of a collection holds exactly the values of its
    bucket, one entry per stored document. *)
Theorem generate_response_contents (ds : Docs) (c : string) :
  (is_Some (_generateResponse ds !! c) ↔ is_Some (ds !! c)) ∧
  ∀ l, _generateResponse ds !! c = Some l →
    length l = size (bucket c ds) ∧ ∀ d, d ∈ l ↔ ∃ i, doc_at ds c i = Some d.
Proof.
  unfold _generateResponse. rewrite lookup_fmap. split; [apply fmap_is_Some|].
  intros l. unfold bucket, doc_at. destruct (ds !! c) as [b|]; simpl; [|done].
  intros [= <-]. split.
  - by rewrite length_fmap, length_map_to_list.
  - intros d. rewrite list_elem_of_fmap. split.
    + intros ([i d'] & -> & Hin). apply elem_of_map_to_list in Hin. by exists i.
    + intros [i Hi]. exists (i, d). split; [done|]. by apply elem_of_map_to_list.
Qed.

(** ** Promise.all over the observe handles *)

Lemma all_some_fmap (hs : list nat) : all_some (Some <$> hs) = Some hs.
Proof. induction hs as [|h hs IH]; [done|]. rewrite fmap_cons. cbn [all_some]. by rewrite IH. Qed.

Lemma all_some_none (rs : list (option nat)) (i : nat) :
  rs !! i = Some None → all_some rs = None.
Proof.
  revert i. induction rs as [|r rs IH]; intros i Hi; [done|].
  destruct i as [|i]; simpl in Hi.
  - by injection Hi as ->.
  - simpl. destruct r; [|done]. by rewrite (IH i Hi).
Qed.

Lemma forallb_id_lookup (l : list bool) : forallb id l = true ↔ ∀ i, l !! i ≠ Some false.
Proof.
  induction l as [|b l IH]; simpl; [split; [done|]; done|].
  destruct b; simpl.
  - rewrite IH. split.
    + intros H [|i]; simpl; [congruence|apply H].
    + intros H i. apply (H (S i)).
  - split; [done|]. intros H. by destruct (H 0).
Qed.

Lemma started_lookup (hs done : list nat) (k : nat) :
  started hs done !! k = (fun h => if bool_decide (k ∈ done) then Some h else None) <$> hs !! k.
Proof. unfold started. by rewrite list_lookup_imap. Qed.

Lemma marks_lookup (hs done : list nat) (k : nat) :
  marks hs done !! k = (fun _ => bool_decide (k ∈ done)) <$> hs !! k.
Proof. unfold marks. by rewrite list_lookup_imap. Qed.

Lemma started_none (hs done : list nat) (k : nat) :
  k < length hs → k ∉ done → started hs done !! k = Some None.
Proof.
  intros Hk Hd. rewrite started_lookup.
  destruct (lookup_lt_is_Some_2 hs k Hk) as [h ->]. simpl. by rewrite bool_decide_false.
Qed.

Lemma marks_false (hs done : list nat) (k : nat) :
  k < length hs → k ∉ done → marks hs done !! k = Some false.
Proof.
  intros Hk Hd. rewrite marks_lookup.
  destruct (lookup_lt_is_Some_2 hs k Hk) as [h ->]. simpl. by rewrite bool_decide_false.
Qed.

Lemma started_insert (hs done : list nat) (k h : nat) :
  hs !! k = Some h → <[k := Some h]> (started hs done) = started hs (k :: done).
Proof.
  intros Hk. apply list_eq. intros j. rewrite list_lookup_insert, !started_lookup.
  unfold started. rewrite length_imap.
  destruct (decide (k = j ∧ k < length hs)) as [[<- _]|Hne].
  - rewrite Hk. simpl. rewrite bool_decide_true by set_solver. done.
  - destruct (hs !! j) eqn:Ej; simpl; [|done].
    assert (k ≠ j).
    { intros <-. apply Hne. split; [done|]. by apply lookup_lt_Some in Hk. }
    by rewrite (bool_decide_ext (j ∈ done) (j ∈ k :: done)) by set_solver.
Qed.

Lemma marks_insert (hs done : list nat) (k : nat) :
  <[k := true]> (marks hs done) = marks hs (k :: done).
Proof.
  apply list_eq. intros j. rewrite list_lookup_insert, !marks_lookup.
  unfold marks. rewrite length_imap.
  destruct (decide (k = j ∧ k < length hs)) as [[<- Hk]|Hne].
  - destruct (lookup_lt_is_Some_2 hs k Hk) as [h ->]. simpl.
    rewrite bool_decide_true by set_solver. done.
  - destruct (hs !! j) eqn:Ej; simpl; [|done].
    assert (k ≠ j).
    { intros <-. apply Hne. split; [done|]. by apply lookup_lt_Some in Ej. }
    by rewrite (bool_decide_ext (j ∈ done) (j ∈ k :: done)) by set_solver.
Qed.

Lemma started_all (hs done : list nat) :
  (∀ k, k < length hs → k ∈ done) → started hs done = Some <$> hs.
Proof.
  intros Hall. apply list_eq. intros j. rewrite started_lookup, list_lookup_fmap.
  destruct (hs !! j) eqn:Ej; simpl; [|done].
  rewrite bool_decide_true; [done|]. apply Hall. by apply lookup_lt_Some in Ej.
Qed.

Lemma marks_all (hs done : list nat) :
  (∀ k, k < length hs → k ∈ done) → forallb id (marks hs done) = true.
Proof.
  intros Hall. apply forallb_id_lookup. intros j. rewrite marks_lookup.
  destruct (hs !! j) eqn:Ej; simpl; [|done].
  rewrite bool_decide_true; [done|]. apply Hall. by apply lookup_lt_Some in Ej.
Qed.

Lemma marks_empty (hs : list nat) : map (fun _ => false) hs = marks hs [].
Proof.
  apply list_eq. intros j. rewrite list_lookup_fmap, marks_lookup.
  destruct (hs !! j); simpl; [|done]. by rewrite ?bool_decide_false by set_solver.
Qed.

Lemma started_empty (hs : list nat) (cs : list jsval) :
  length cs = length hs → map (fun _ => None) cs = started hs [].
Proof.
  intros Hl. apply list_eq. intros j. rewrite list_lookup_fmap, started_lookup.
  destruct (hs !! j) eqn:Ej; simpl.
  - apply lookup_lt_Some in Ej. rewrite <- Hl in Ej.
    destruct (lookup_lt_is_Some_2 cs j Ej) as [x ->]. simpl.
    by rewrite ?bool_decide_false by set_solver.
  - apply lookup_ge_None in Ej. rewrite <- Hl in Ej.
    by rewrite (proj2 (lookup_ge_None cs j) Ej).
Qed.

Lemma perm_seq_facts (ks : list nat) (n : nat) :
  ks ≡ₚ seq 0 n → NoDup ks ∧ ∀ k, k ∈ ks ↔ k < n.
Proof.
  intros Hp. split.
  - rewrite Hp. apply NoDup_seq.
  - intros k. rewrite Hp, elem_of_seq. lia.
Qed.

Lemma set_phase_set_phase (p q : Phase) (s : St) : set_phase p (set_phase q s) = set_phase p s.
Proof. by destruct s. Qed.

Lemma set_phase_handles (p q : Phase) (hs : list nat) (s : St) :
  set_phase p (set_handles hs (set_phase q s)) = set_phase p (set_handles hs s).
Proof. by destruct s. Qed.

Lemma start_barrier (reg : Registry) (hs ks : list nat) :
  ∀ dn s, NoDup ks → (∀ k, k ∈ ks → k < length hs ∧ k ∉ dn) →
  (∀ k, k < length hs → k ∈ dn ∨ k ∈ ks) → ks ≠ [] →
  phase s = PStarting (started hs dn) →
  run reg (start_events hs ks) s =
    set_phase (PInitial hs (map (fun _ => false) hs)) (set_handles (_observeHandles s ++ hs) s).
Proof.
  induction ks as [|k ks IH]; intros dn s Hnd Hks Hcov Hne Hph; [done|].
  change (start_events hs (k :: ks)) with (EvStarted k (inr (hs !!! k)) :: start_events hs ks).
  rewrite run_cons. cbn [step]. unfold on_started. rewrite Hph.
  destruct (Hks k ltac:(set_solver)) as [Hk Hkd].
  rewrite started_none by done. cbv zeta.
  assert (hs !! k = Some (hs !!! k)) as Hl by (by apply list_lookup_lookup_total_lt).
  rewrite started_insert by done.
  apply NoDup_cons in Hnd as [Hkn Hnd].
  destruct ks as [|k' ks'].
  - rewrite started_all; [rewrite all_some_fmap; reflexivity|].
    intros j Hj. destruct (Hcov j Hj) as [Hd|Hd]; set_solver.
  - destruct (Hks k' ltac:(set_solver)) as [Hk'l Hk'd].
    rewrite (all_some_none _ k').
    2:{ apply started_none; [done|]. set_solver. }
    rewrite (IH (k :: dn)); [| done | | | done | done].
    + by rewrite set_phase_handles.
    + intros j Hj. split; [apply Hks; set_solver|]. set_solver.
    + intros j Hj. destruct (Hcov j Hj); set_solver.
Qed.

Lemma initial_barrier (reg : Registry) (hs ks : list nat) :
  ∀ dn s, NoDup ks → (∀ k, k ∈ ks → k < length hs ∧ k ∉ dn) →
  (∀ k, k < length hs → k ∈ dn ∨ k ∈ ks) → ks ≠ [] →
  phase s = PInitial hs (marks hs dn) →
  run reg (initial_events ks) s = set_phase (PFlush hs (map (fun _ => false) hs)) s.
Proof.
  induction ks as [|k ks IH]; intros dn s Hnd Hks Hcov Hne Hph; [done|].
  change (initial_events (k :: ks)) with (EvInitial k None :: initial_events ks).
  rewrite run_cons. cbn [step]. unfold on_initial. rewrite Hph.
  destruct (Hks k ltac:(set_solver)) as [Hk Hkd].
  rewrite marks_false by done. cbv zeta. rewrite marks_insert.
  apply NoDup_cons in Hnd as [Hkn Hnd].
  destruct ks as [|k' ks'].
  - rewrite marks_all; [reflexivity|].
    intros j Hj. destruct (Hcov j Hj) as [Hd|Hd]; set_solver.
  - destruct (Hks k' ltac:(set_solver)) as [Hk'l Hk'd].
    assert (forallb id (marks hs (k :: dn)) = false) as ->.
    { apply not_true_is_false. rewrite forallb_id_lookup. intros H.
      apply (H k'). apply marks_false; [done|]. set_solver. }
    rewrite (IH (k :: dn)); [| done | | | done | done].
    + by rewrite set_phase_set_phase.
    + intros j Hj. split; [apply Hks; set_solver|]. set_solver.
    + intros j Hj. destruct (Hcov j Hj); set_solver.
Qed.

Lemma flush_barrier (reg : Registry) (hs ks : list nat) :
  ∀ dn s, NoDup ks → (∀ k, k ∈ ks → k < length hs ∧ k ∉ dn) →
  (∀ k, k < length hs → k ∈ dn ∨ k ∈ ks) → ks ≠ [] →
  phase s = PFlush hs (marks hs dn) →
  run reg (flush_events ks) s = ready (signal_adds (set_phase PDone s)).
Proof.
  induction ks as [|k ks IH]; intros dn s Hnd Hks Hcov Hne Hph; [done|].
  change (flush_events (k :: ks)) with (EvFlushed k None :: flush_events ks).
  rewrite run_cons. cbn [step]. unfold on_flushed. rewrite Hph.
  destruct (Hks k ltac:(set_solver)) as [Hk Hkd].
  rewrite marks_false by done. cbv zeta. rewrite marks_insert.
  apply NoDup_cons in Hnd as [Hkn Hnd].
  destruct ks as [|k' ks'].
  - rewrite marks_all; [reflexivity|].
    intros j Hj. destruct (Hcov j Hj) as [Hd|Hd]; set_solver.
  - destruct (Hks k' ltac:(set_solver)) as [Hk'l Hk'd].
    assert (forallb id (marks hs (k :: dn)) = false) as ->.
    { apply not_true_is_false. rewrite forallb_id_lookup. intros H.
      apply (H k'). apply marks_false; [done|]. set_solver. }
    rewrite (IH (k :: dn)); [| done | | | done | done].
    + by rewrite set_phase_set_phase.
    + intros j Hj. split; [apply Hks; set_solver|]. set_solver.
    + intros j Hj. destruct (Hcov j Hj); set_solver.
Qed.

Lemma perm_barrier_conds (ks : list nat) (n : nat) :
  ks ≡ₚ seq 0 n → n ≠ 0 →
  NoDup ks ∧ (∀ k, k ∈ ks → k < n ∧ k ∉ []) ∧ (∀ k, k < n → k ∈ [] ∨ k ∈ ks) ∧ ks ≠ [].
Proof.
  intros Hp Hn. destruct (perm_seq_facts ks n Hp) as [Hnd Hin].
  split; [done|]. split; [|split].
  - intros k Hk. split; [by apply Hin|set_solver].
  - intros k Hk. right. by apply Hin.
  - intros ->. assert (0 ∈ ([] : list nat)) by (apply Hin; lia). set_solver.
Qed.

Lemma apply_op_keeps_stop (op : Op) (s : St) :
  op ≠ MStop → adds_p s = false →
  _stopped (apply_op op s) = _stopped s ∧ _observeHandles (apply_op op s) = _observeHandles s ∧
  stop_log (apply_op op s) = stop_log s ∧ adds_p (apply_op op s) = false.
Proof.
  intros Hop Ha. destruct op; simpl; auto; [|done].
  unfold ready, signal_ready.
  destruct (_readyResolver s), (ready_p s); cbn; rewrite ?Ha; auto.
Qed.

Lemma apply_ops_keep_stop (ops : list Op) (s : St) :
  MStop ∉ ops → adds_p s = false →
  let s' := foldl (fun s op => apply_op op s) s ops in
  _stopped s' = _stopped s ∧ _observeHandles s' = _observeHandles s ∧ stop_log s' = stop_log s.
Proof.
  revert s. induction ops as [|op ops IH]; intros s Hops Ha; simpl; [auto|].
  assert (op ≠ MStop) as Hop by (intros ->; set_solver).
  destruct (apply_op_keeps_stop op s Hop Ha) as (H1 & H2 & H3 & H4).
  destruct (IH (apply_op op s) ltac:(set_solver) H4) as (G1 & G2 & G3).
  rewrite G1, G2, G3. auto.
Qed.

Lemma ready_signal_adds_final (s : St) :
  adds_p s = false → _readyResolver s = true → _stopped s = false →
  outcome s = Pending → timer s = TArmed →
  let s' := ready (signal_adds s) in
  outcome s' = Resolved (_generateResponse (_documents s)) ∧ _documents s' = _documents s ∧
  stop_log s' = stop_log s ++ _observeHandles s ∧ _observeHandles s' = [] ∧
  timer s' = TCleared.
Proof.
  destruct s as [d oh st sl rr rp ap tm oc cn ph iv]. cbn.
  intros -> -> -> -> ->.
  unfold ready, signal_adds, signal_ready, succeed, cleanup, stop.
  destruct rp; cbn; auto.
Qed.

(** The success path of collect with cursors: the handler returns a
    value whose retained cursors get the observe handles [hs]; the
    _publishCursor promises, then the initialAddsSent promises, then the
    flush() promises resolve, each batch in any order.  Then collect
    resolves with the snapshot of the store (the handler's synchronous
    calls plus the registered cursor collections), every handle is
    stopped once, in cursor order, and the timer is cleared.  The handler
    must not call this.stop() itself. *)
Theorem collect_cursors_success (reg : Registry) (name : string) (args : list jsval)
    (h : Handler) (v : jsval) (s : St) (hs ks1 ks2 ks3 : list nat) :
  reg !! name = Some h → h_result (h args) = HReturn v → MStop ∉ h_ops (h args) →
  _extractCursors v ≠ [] → length hs = length (_extractCursors v) →
  ks1 ≡ₚ seq 0 (length hs) → ks2 ≡ₚ seq 0 (length hs) → ks3 ≡ₚ seq 0 (length hs) →
  let s' := run reg (start_events hs ks1 ++ initial_events ks2 ++ flush_events ks3)
              (collect reg name args s) in
  outcome s' = Resolved (_generateResponse (_documents s')) ∧
  _documents s' =
    foldl (fun ds cur => _ensureCollectionInRes (collection_name cur) ds)
      (foldl (fun ds op => store_op op ds) ∅ (h_ops (h args))) (_extractCursors v) ∧
  stop_log s' = stop_log s ++ hs ∧ _observeHandles s' = [] ∧ timer s' = TCleared.
Proof.
  intros Hreg Hres Hstop Hne Hlen P1 P2 P3. cbv zeta.
  assert (length hs ≠ 0) as Hn0.
  { rewrite Hlen. intros Hl. apply Hne. by apply nil_length_inv. }
  destruct (perm_barrier_conds ks1 _ P1 Hn0) as (N1 & I1 & C1 & E1).
  destruct (perm_barrier_conds ks2 _ P2 Hn0) as (N2 & I2 & C2 & E2).
  destruct (perm_barrier_conds ks3 _ P3 Hn0) as (N3 & I3 & C3 & E3).
  unfold collect. destruct (reg !! name) as [h'|] eqn:E; [|congruence].
  injection Hreg as ->. cbv zeta. rewrite Hres.
  set (s1 := mkSt ∅ [] false (stop_log s) true false false TArmed Pending name
               PAwaitHandler (invoked s ++ [(name, args)])).
  pose proof (apply_ops_quiet (h_ops (h args)) s1 eq_refl) as HQ.
  pose proof (apply_ops_keep_stop (h_ops (h args)) s1 Hstop eq_refl) as HK.
  pose proof (apply_ops_documents (h_ops (h args)) s1) as HD.
  cbv zeta in HQ, HK.
  set (s2 := foldl (fun s op => apply_op op s) s1 (h_ops (h args))) in *.
  destruct HQ as (Q1 & Q2 & Q3 & Q4 & Q5). destruct HK as (K1 & K2 & K3).
  unfold _publishHandlerResult.
  destruct (_extractCursors v) as [|c0 cs] eqn:Ec; [done|].
  set (D := foldl (fun ds cur => _ensureCollectionInRes (collection_name cur) ds)
              (_documents s2) (c0 :: cs)).
  set (s3 := set_phase (PStarting (map (fun _ => None) (c0 :: cs))) (set_documents D s2)).
  rewrite !run_app.
  rewrite (start_barrier reg hs ks1 [] s3 N1 I1 C1 E1).
  2:{ unfold s3. cbn [phase set_phase set_documents]. by rewrite (started_empty hs (c0 :: cs)). }
  set (s4 := set_phase (PInitial hs (map (fun _ => false) hs))
               (set_handles (_observeHandles s3 ++ hs) s3)).
  rewrite (initial_barrier reg hs ks2 [] s4 N2 I2 C2 E2).
  2:{ unfold s4. cbn [phase set_phase set_handles]. by rewrite marks_empty. }
  rewrite (flush_barrier reg hs ks3 [] _ N3 I3 C3 E3).
  2:{ cbn [phase set_phase set_handles]. by rewrite marks_empty. }
  destruct (ready_signal_adds_final
              (set_phase PDone (set_phase (PFlush hs (map (fun _ => false) hs)) s4)))
    as (F1 & F2 & F3 & F4 & F5).
  1-5: cbn; by rewrite ?Q1, ?Q2, ?Q4, ?Q5, ?K1.
  rewrite F1, F2, F3, F4, F5. cbn. rewrite K2, K3, HD. cbn.
  repeat split; reflexivity.
Qed.

Lemma collect_cursors_success_witness :
  outcome (run reg_cursor (start_events [7] [0] ++ initial_events [0] ++ flush_events [0])
             (collect reg_cursor "pub" [] init)) = Resolved {[ "c" := [] ]} ∧
  stop_log (run reg_cursor (start_events [7] [0] ++ initial_events [0] ++ flush_events [0])
              (collect reg_cursor "pub" [] init)) = [7].
Proof.
  destruct (collect_cursors_success reg_cursor "pub" [] _ cursor_c init [7] [0] [0] [0]
              eq_refl eq_refl ltac:(set_solver) ltac:(discriminate) eq_refl
              ltac:(reflexivity) ltac:(reflexivity) ltac:(reflexivity))
    as (H1 & H2 & H3 & _).
  split; [rewrite H1, H2; reflexivity|exact H3].
Defined.

(** ** stop() once the instance is stopped *)

Lemma step_keeps_stopped (reg : Registry) (ev : Event) (s : St) :
  _stopped s = true → (∀ n a, ev ≠ EvCollect n a) →
  _stopped (step reg ev s) = true ∧ stop_log (step reg ev s) = stop_log s.
Proof.
  destruct s as [d oh st sl rr rp ap tm oc cn ph iv]. cbn [_stopped stop_log].
  intros -> Hnc.
  destruct ev as [n a|op|r|k r|k r|k r|]; cbn [step]; [by destruct (Hnc n a)|..];
    unfold apply_op, on_handler_settle, on_started, on_initial, on_flushed, on_timer,
      _publishHandlerResult, fail, reject, ready, signal_adds, signal_ready, succeed,
      cleanup, stop;
    cbn; repeat (case_match; cbn); auto.
Qed.

(** Once stop() has run (the handler's own this.stop(), or the stop() of
    cleanup), _stopped stays set until the next collect call: no later
    stop(), neither the one of cleanup on success or failure nor an
    explicit one, stops any handle, so handles pushed afterwards stay
    registered and are never stopped. *)
Theorem stopped_instance_stops_nothing (reg : Registry) (tr : list Event) (s : St) :
  _stopped s = true → (∀ n a, EvCollect n a ∉ tr) →
  _stopped (run reg tr s) = true ∧ stop_log (run reg tr s) = stop_log s.
Proof.
  revert s. induction tr as [|ev tr IH]; intros s Hst Hnc; [done|].
  rewrite run_cons.
  destruct (step_keeps_stopped reg ev s Hst) as [H1 H2].
  { intros n a ->. apply (Hnc n a). by left. }
  destruct (IH (step reg ev s) H1) as [G1 G2].
  { intros n a Hin. apply (Hnc n a). by right. }
  rewrite G1, G2, H2. done.
Qed.

Lemma stopped_instance_stops_nothing_witness :
  let s := collect reg_stop_cursor "pub" [] init in
  let tr := start_events [7] [0] ++ initial_events [0] ++ flush_events [0] in
  _stopped s = true ∧ stop_log (run reg_stop_cursor tr s) = [] ∧
  _observeHandles (run reg_stop_cursor tr s) = [7] ∧
  outcome (run reg_stop_cursor tr s) = Resolved {[ "c" := [] ]}.
Proof.
  intros s tr.
  assert (Hst : _stopped s = true) by reflexivity.
  split; [exact Hst|]. split.
  - exact (proj2 (stopped_instance_stops_nothing reg_stop_cursor tr s Hst
                    ltac:(intros n a; unfold tr; simpl; not_in_list))).
  - split; vm_compute; reflexivity.
Defined.

Lemma clear_timer_not_armed (t : Timer) : clear_timer t ≠ TArmed.
Proof. by destruct t. Qed.

Ltac done_fin :=
  repeat match goal with
  | |- _ ∧ _ => split
  | |- ∀ _, _ => intros
  end;
  first [done | apply clear_timer_not_armed | by destruct_and?; naive_solver
        | idtac].

Ltac done_brute :=
  unfold apply_op, on_handler_settle, on_started, on_initial, on_flushed, on_timer,
    _publishHandlerResult, fail, reject, ready, signal_adds, signal_ready, succeed,
    cleanup, stop;
  cbn; repeat (case_match; cbn in *; try discriminate); done_fin.

Ltac done_prep s :=
  let H1 := fresh "H1" in let H2 := fresh "H2" in
  destruct s as [d oh st sl rr rp ap tm oc cn ph iv];
  intros [H1 H2]; unfold done_inv; cbn in H1, H2;
  destruct oc as [| |S0|e0]; [..|destruct (H1 _ eq_refl) as (-> & ? & ->)|];
  destruct ap; try (specialize (H2 eq_refl) as ->).

Lemma handler_settle_done_inv (r : JsError + jsval) (s : St) :
  done_inv s → done_inv (on_handler_settle r s).
Proof. done_prep s; done_brute. Qed.

Lemma step_done_inv (reg : Registry) (ev : Event) (s : St) :
  done_inv s → done_inv (step reg ev s).
Proof.
  destruct ev as [n a|op|r|k r|k r|k r|]; cbn [step].
  2-7: done_prep s; done_brute.
  intros Hinv. unfold collect. destruct (reg !! n) as [h|].
  - set (s1 := mkSt ∅ [] false (stop_log s) true false false TArmed Pending
                  n PAwaitHandler (invoked s ++ [(n, a)])).
    pose proof (apply_ops_quiet (h_ops (h a)) s1 eq_refl) as HQ. cbv zeta in HQ.
    set (s2 := foldl (fun s op => apply_op op s) s1 (h_ops (h a))) in *.
    destruct HQ as (O1 & A1 & P1 & R1 & T1).
    assert (Hs2 : done_inv s2).
    { split; [intros S0; rewrite O1; discriminate|]. rewrite A1; discriminate. }
    destruct (h_result (h a)) as [e|v|]; [| |exact Hs2].
    + pose proof (handler_settle_done_inv (inl e) s2 Hs2) as HH.
      unfold on_handler_settle in HH. by rewrite P1 in HH.
    + pose proof (handler_settle_done_inv (inr v) s2 Hs2) as HH.
      unfold on_handler_settle in HH. by rewrite P1 in HH.
  - destruct Hinv as [H1 H2]. split; cbn; [discriminate|exact H2].
Qed.

Lemma run_done_inv (reg : Registry) (tr : list Event) (s : St) :
  done_inv s → done_inv (run reg tr s).
Proof.
  revert s. induction tr as [|ev tr IH]; intros s Hs; [done|].
  rewrite run_cons. apply IH, step_done_inv, Hs.
Qed.

(** Once collect has resolved, cleanup has run (the instance is marked
    stopped and the timer is no longer armed) and the publication chain
    is finished. *)
Theorem resolved_call_is_cleaned_up (reg : Registry) (tr : list Event) (S : Snapshot) :
  outcome (run reg tr init) = Resolved S →
  let s := run reg tr init in
  _stopped s = true ∧ timer s ≠ TArmed ∧ phase s = PDone.
Proof.
  intros Hout s.
  assert (Hinit : done_inv init) by (split; cbn; discriminate).
  exact (proj1 (run_done_inv reg tr init Hinit) S Hout).
Qed.

Lemma resolved_call_is_cleaned_up_witness :
  let tr := [EvCollect "pub" []; EvStarted 0 (inr 7); EvInitial 0 None; EvFlushed 0 None] in
  outcome (run reg_cursor tr init) = Resolved {[ "c" := [] ]} ∧
  (let s := run reg_cursor tr init in
   _stopped s = true ∧ timer s ≠ TArmed ∧ phase s = PDone).
Proof.
  intros tr.
  assert (H : outcome (run reg_cursor tr init) = Resolved {[ "c" := [] ]})
    by (vm_compute; reflexivity).
  split; [exact H|]. exact (resolved_call_is_cleaned_up reg_cursor tr _ H).
Defined.
